(** * broady/mtg, package [cards]: the card catalog, its query engine and
    the self-refreshing store.

    The development follows the two source files of the package:
    - [cards.go]: [Card], [Cards] (the catalog with its normalized index),
      [normalizeCardName], and the [Store] with its background refresh;
    - [query.go]: [Query], [ParseQuery], [Query.Match], [Cards.Query].

    Go strings are byte sequences; they are modelled by [string], whose
    characters are 8-bit.  A literal such as "Æ" denotes its UTF-8 bytes
    (C3 86), exactly as in the Go source. *)

From Stdlib Require Import ZArith NArith Ascii Lia.
From stdpp Require Import base strings list gmap.

(** ** The parts of Go's [strings] package that the source calls *)

Module strings.

Definition code (c : ascii) : N := N_of_ascii c.

(** [strings.HasPrefix(s, p)] *)
Definition HasPrefix (s p : string) : bool := String.prefix p s.

(** [strings.Contains(s, substr)] *)
Fixpoint Contains (s substr : string) : bool :=
  String.prefix substr s ||
  match s with
  | EmptyString => false
  | String _ s' => Contains s' substr
  end.

(** [strings.Join(elems, sep)] *)
Fixpoint Join (elems : list string) (sep : string) : string :=
  match elems with
  | [] => ""
  | [a] => a
  | a :: rest => a +:+ sep +:+ Join rest sep
  end.

(** [strings.Replace(s, old, new, -1)] for a non-empty [old]: every
    non-overlapping occurrence, left to right.  [skip] counts the bytes of
    the occurrence just replaced that are still to be dropped. *)
Fixpoint replaceFrom (old new : string) (skip : nat) (s : string) : string :=
  match s with
  | EmptyString => ""
  | String c s' =>
      match skip with
      | S k => replaceFrom old new k s'
      | O =>
          if String.prefix old s
          then new +:+ replaceFrom old new (String.length old - 1) s'
          else String c (replaceFrom old new 0 s')
      end
  end.

(** The package only passes the constants "Æ" and "’" as [old]; the
    library's treatment of an empty pattern is outside this model. *)
Definition Replace (s old new : string) : string :=
  match old with
  | EmptyString => s
  | _ => replaceFrom old new 0 s
  end.

(** [strings.ToLower] on UTF-8 text whose cased letters lie in
    U+0000..U+00FF: the ASCII capitals, and the Latin-1 capitals
    U+00C0..U+00DE (bytes C3 80 .. C3 9E, without the sign U+00D7),
    move up by 32; every other byte is kept. *)
Definition isUpperASCII (c : ascii) : bool :=
  ((65 <=? code c) && (code c <=? 90))%N.

Definition isUpperLatin1 (d : ascii) : bool :=
  ((128 <=? code d) && (code d <=? 158) && negb (code d =? 151))%N.

Definition shift32 (c : ascii) : ascii := ascii_of_N (code c + 32).

Definition lowerASCII (c : ascii) : ascii :=
  if isUpperASCII c then shift32 c else c.

Fixpoint ToLower (s : string) : string :=
  match s with
  | EmptyString => ""
  | String c s' =>
      if (code c =? 195)%N then
        match s' with
        | String d s'' =>
            if isUpperLatin1 d
            then String c (String (shift32 d) (ToLower s''))
            else String c (ToLower s')
        | EmptyString => String c ""
        end
      else String (lowerASCII c) (ToLower s')
  end.

(** [unicode.IsSpace], read off the UTF-8 bytes: the width in bytes of
    the white-space rune at the head of [s], or 0 when there is none.
    A lead byte is never a continuation byte, so scanning bytes finds
    the same runes as Go's decoder. *)
Definition asciiSpace (c : ascii) : bool :=
  ((9 <=? code c) && (code c <=? 13) || (code c =? 32))%N.

Definition spaceWidth (s : string) : nat :=
  match s with
  | EmptyString => 0
  | String c s1 =>
      if asciiSpace c then 1 else
      match s1 with
      | EmptyString => 0
      | String d s2 =>
          if ((code c =? 194) && ((code d =? 133) || (code d =? 160)))%N
          then 2 else
          match s2 with
          | EmptyString => 0
          | String e _ =>
              let c := code c in let d := code d in let e := code e in
              if ((c =? 225) && (d =? 154) && (e =? 128)        (* U+1680 *)
               || (c =? 226) && (d =? 128) &&
                    ((128 <=? e) && (e <=? 138)                 (* U+2000..U+200A *)
                     || (e =? 168) || (e =? 169) || (e =? 175)) (* U+2028, U+2029, U+202F *)
               || (c =? 226) && (d =? 129) && (e =? 159)        (* U+205F *)
               || (c =? 227) && (d =? 128) && (e =? 128))%N     (* U+3000 *)
              then 3 else 0
          end
      end
  end.

Definition flush (cur : string) : list string :=
  match cur with
  | EmptyString => []
  | _ => [cur]
  end.

(** [strings.Fields(s)]: the maximal runs of non-space runes. [cur] is
    the field being read, [skip] the bytes of a white-space rune still to
    be passed. *)
Fixpoint fieldsFrom (skip : nat) (cur : string) (s : string) : list string :=
  match s with
  | EmptyString => flush cur
  | String c s' =>
      match skip with
      | S k => fieldsFrom k cur s'
      | O =>
          match spaceWidth s with
          | O => fieldsFrom 0 (cur +:+ String c "") s'
          | S k => flush cur ++ fieldsFrom k "" s'
          end
      end
  end.

Definition Fields (s : string) : list string := fieldsFrom 0 "" s.

End strings.

(** ** cards.go: the data model *)

Record Ruling := { Date : string; Ruling_Text : string }.

Record FormatLegality := { Format : string; Legality : string }.

(** [Card].  [CMC] is a float64 that no function of the package reads; it
    is carried as its 64-bit pattern. *)
Module Card.
Record t := mk {
  Name : string;
  Names : list string;
  ManaCost : string;
  CMC : Z;
  Colors : list string;
  ColorIdentity : list string;
  Type_ : string;
  SuperTypes : list string;
  Types : list string;
  SubTypes : list string;
  Rarity : string;
  Text : string;
  Flavor : string;
  Power : string;
  Toughness : string;
  Printings : list string;
  Legalities : list FormatLegality;
  Rulings : list Ruling
}.
End Card.
Abbreviation Card := Card.t.

(** [for _, card := range m]: Go visits the entries of a map in an
    unspecified order.  A function that ranges over a map takes the visiting
    order as an argument; [MapRange m visit] says that [visit] is such an
    order for [m]. *)
Definition MapRange {V} (m : gmap string V) (visit : list (string * V)) : Prop :=
  visit ≡ₚ map_to_list m.

(** [normalizeCardName] *)
Definition normalizeCardName (s : string) : string :=
  let s := strings.Replace s "Æ" "Ae" in
  strings.Replace s "’" "'".

(** ** query.go: the query engine *)

(** [shortColor] *)
Definition shortColor (long : string) : string :=
  if String.eqb long "White" then "w"
  else if String.eqb long "Blue" then "u"
  else if String.eqb long "Black" then "b"
  else if String.eqb long "Red" then "r"
  else if String.eqb long "Green" then "g"
  else "".

(** [validColor].  The source tests a rune; every rune it accepts is a
    single ASCII byte. *)
Definition validColor (c : ascii) : bool :=
  match c with
  | "w" | "u" | "b" | "r" | "g" | "m" => true
  | _ => false
  end%char.

(** [s[n:]] *)
Fixpoint sliceFrom (n : nat) (s : string) : string :=
  match n, s with
  | O, _ => s
  | S k, String _ s' => sliceFrom k s'
  | S _, EmptyString => ""
  end.

Module Query.

Record t := mk {
  Name : list string;
  Rule : list string;
  Type_ : list string;
  (* "w", "u", "b", "r", "g", "m" (multicolored), or one of these after
     a "!" (not). *)
  Color : list string
}.

(** The inner loop [for _, c := range c.Colors] of [Match]: the first
    color whose short form is [qc] decides ([Some false]: return false;
    [Some true]: continue with the next predicate); [None] when the loop
    runs to its end. *)
Fixpoint colorLoop (not : bool) (qc : string) (colors : list string) : option bool :=
  match colors with
  | [] => None
  | c :: rest =>
      if String.eqb (shortColor c) qc
      then Some (negb not)
      else colorLoop not qc rest
  end.

(** The body of the loop labelled [Color], for one predicate [qc]:
    [true] when the loop goes on to the next predicate, [false] when
    [Match] returns false. *)
Definition colorStep (c : Card) (qc : string) : bool :=
  match qc with
  | EmptyString => true
  | String q0 rest =>
      let '(not, qc) :=
        if Ascii.eqb q0 "!" then (true, rest) else (false, qc) in
      if String.eqb qc "m" && (1 <? length (Card.Colors c)) then negb not
      else
        match colorLoop not qc (Card.Colors c) with
        | Some continue => continue
        | None => not
        end
  end.

(** [Query.Match].  Each of the four loops returns false at the first
    predicate that fails and falls through otherwise. *)
Definition Match (q : t) (c : Card) : bool :=
  forallb (fun qn => strings.Contains (strings.ToLower (Card.Name c)) qn) (Name q)
  && forallb (fun qr => strings.Contains (strings.ToLower (Card.Text c)) qr) (Rule q)
  && forallb (fun qt => strings.Contains (strings.ToLower (Card.Type_ c)) qt) (Type_ q)
  && forallb (colorStep c) (Color q).

End Query.
Abbreviation Query := Query.t.

(** The two color loops of [ParseQuery], over the lowercased letters: one
    predicate per valid letter, with a "!" in front when [neg].  The source
    ranges over runes; a rune of several bytes is never valid and none of
    its bytes is an ASCII letter, so ranging over bytes keeps the same
    letters. *)
Fixpoint colorPredicates (neg : bool) (letters : string) : list string :=
  match letters with
  | EmptyString => []
  | String c rest =>
      if validColor c
      then (if neg then String "!" (String c "") else String c "")
             :: colorPredicates neg rest
      else colorPredicates neg rest
  end.

(** The body of the loop of [ParseQuery], for one field [s]. *)
Definition parseField (q : Query) (s : string) : Query :=
  let p := fun p => strings.HasPrefix s p in
  if p "o:" then
    Query.mk (Query.Name q) (Query.Rule q ++ [strings.ToLower (sliceFrom 2 s)])
             (Query.Type_ q) (Query.Color q)
  else if p "t:" then
    Query.mk (Query.Name q) (Query.Rule q)
             (Query.Type_ q ++ [strings.ToLower (sliceFrom 2 s)]) (Query.Color q)
  else if p "c:" then
    Query.mk (Query.Name q) (Query.Rule q) (Query.Type_ q)
             (Query.Color q ++ colorPredicates false (strings.ToLower (sliceFrom 2 s)))
  else if p "c!" then
    Query.mk (Query.Name q) (Query.Rule q) (Query.Type_ q)
             (Query.Color q ++ colorPredicates true (strings.ToLower (sliceFrom 2 s)))
  else
    Query.mk (Query.Name q ++ [strings.ToLower s]) (Query.Rule q)
             (Query.Type_ q) (Query.Color q).

(** [ParseQuery] *)
Definition ParseQuery (s : string) : Query :=
  foldl parseField (Query.mk [] [] [] []) (strings.Fields s).

(** ** The catalog *)

Module Cards.

(** The two maps hold pointers to cards.  No function of the package
    writes to a card once it is decoded, so an entry is modelled by the
    card it points to. *)
Record t := mk {
  (* Map from card name to the card. *)
  M : gmap string Card;
  (* Map from normalized card name to the card. *)
  normalized : gmap string Card
}.

(** [Cards.LookupNormalized]; [None] is Go's nil result. *)
Definition LookupNormalized (c : t) (cardName : string) : option Card :=
  normalized c !! strings.ToLower (normalizeCardName cardName).

(** The body of the loop of [generateNormalized], for one card. *)
Definition indexCard (normalized : gmap string Card) (card : Card)
  : gmap string Card :=
  let normalized :=
    if negb (length (Card.Names card) =? 0) then
      let n1 := <[strings.ToLower (strings.Join (Card.Names card) " & ") := card]> normalized in
      let n2 := <[strings.ToLower (strings.Join (Card.Names card) " / ") := card]> n1 in
      <[strings.ToLower (strings.Join (Card.Names card) " // ") := card]> n2
    else normalized in
  <[strings.ToLower (normalizeCardName (Card.Name card)) := card]> normalized.

(** [Cards.generateNormalized], ranging over [c.M] in the order [visit]. *)
Definition generateNormalized (c : t) (visit : list (string * Card)) : t :=
  mk (M c) (foldl (fun n e => indexCard n e.2) (normalized c) visit).

(** One round of the loop of [Cards.Query]. *)
Definition queryStep (query : Query) (st : list Card * gmap string bool)
    (card : Card) : list Card * gmap string bool :=
  let '(match_, seen) := st in
  if Query.Match query card && negb (default false (seen !! Card.Name card))
  then (match_ ++ [card], <[Card.Name card := true]> seen)
  else (match_, seen).

(** [Cards.Query], ranging over [c.M] in the order [visit]; the second
    component is the error, always nil. *)
Definition Query (c : t) (q : string) (visit : list (string * Card))
  : list Card * option string :=
  let query := ParseQuery q in
  let '(match_, _) :=
    foldl (fun st e => queryStep query st e.2) ([], ∅) visit in
  (match_, None).

End Cards.
Abbreviation Cards := Cards.t.

(** ** cards.go: the store *)

(** Channels.  The store only ever closes its channels and receives from
    them, so a channel is an identity plus the fact of being closed:
    [next] is the next identity [make] hands out, [fired] the channels
    closed so far. *)
Definition chan := nat.

Record Chans := { next : chan; fired : gset chan }.

Definition make (h : Chans) : chan * Chans :=
  (next h, {| next := S (next h); fired := fired h |}).

Definition close (ch : chan) (h : Chans) : Chans :=
  {| next := next h; fired := {[ch]} ∪ fired h |}.

(** [case <-ch:] in a select with a default, for a channel nobody sends
    on: ready exactly when [ch] is closed. *)
Definition isClosed (ch : chan) (h : Chans) : bool := bool_decide (ch ∈ fired h).

(** What [hc.Do] and [ioutil.ReadAll] give back in one refresh cycle. *)
Record Response := {
  StatusCode : Z;
  Body : string;              (* the bytes ReadAll returns *)
  ReadErr : option string;    (* its error, if any *)
  Etag : string               (* resp.Header.Get("Etag") *)
}.

Inductive HttpResult :=
| DoErr (err : string)
| DoOk (resp : Response).

(** The remote source: its answer to the GET, given the [If-None-Match]
    value the request presents. *)
Definition RoundTrip := string -> HttpResult.

(** What lies outside the package: [json.Unmarshal] into
    [map[string]*Card] (an error, or the decoded map) and the order in
    which the runtime ranges over a map when the index is built.  The
    decoded map has a card under every name.  A feed with a null entry
    decodes, without error, to a nil pointer, which [generateNormalized]
    dereferences: that cycle panics before anything is published.  Such a
    cycle is outside this model, whose cycles all return; what is proved
    of a successful cycle is stated from its log line, which a cycle that
    panics never writes. *)
Class Runtime := {
  Unmarshal : string -> string + gmap string Card;
  rangeOrder : gmap string Card -> list (string * Card)
}.

(** The lines the store hands to its logger. *)
Inductive LogMsg :=
| CouldNotUpdate (err : string)
| UpdateFailed (status : Z) (body : string)
| CouldNotRead (err : string)
| CouldNotUnmarshal (err : string) (body : string)
| UpdateSuccessful.

(** [truncate] *)
Definition truncate (b : string) (n : nat) : string :=
  if n <? String.length b then String.substring 0 n b else b.

Definition StatusNotModified : Z := 304.
Definition StatusOK : Z := 200.
Definition Hour : Z := 3600000000000.

Module Store.

(** The fields of [Store] that the code reads and writes, and the state
    of the channels they refer to.  [cards] is nil ([None]) until the
    first successful refresh.  [Logger] and [Client] are left out: the
    first only says where the log lines go, which the model returns; the
    second who performs the request, whose answer the model takes as an
    input.  The lock [mu] is rendered by taking each locked section in
    one step. *)
Record t := mk {
  updateFrequency : Z;
  closed : chan;
  ready : chan;
  cards : option Cards;
  etag : string;
  notifyCh : chan;
  chans : Chans
}.

Definition withChans (s : t) (h : Chans) : t :=
  mk (updateFrequency s) (closed s) (ready s) (cards s) (etag s) (notifyCh s) h.

(** The struct literal of [NewStore]: three fresh channels. *)
Definition init : t :=
  let h0 := {| next := 0; fired := ∅ |} in
  let '(ready, h1) := make h0 in
  let '(closed, h2) := make h1 in
  let '(notifyCh, h3) := make h2 in
  mk Hour closed ready None "" notifyCh h3.

(** [Store.Close]: the select on [s.closed] with its default case, taken
    in one step. *)
Definition Close (s : t) : t * option string :=
  if isClosed (closed s) (chans s)
  then (s, Some "already closed")
  else (withChans s (close (closed s) (chans s)), None).

(** The channel [WaitForUpdate] returns, with the signal its goroutine
    waits on before it sends. *)
Record Handle := { signal : chan; out : chan }.

(** [Store.WaitForUpdate]: reads [s.notifyCh] under the lock and makes
    the result channel. *)
Definition WaitForUpdate (s : t) : t * Handle :=
  let notifyCh := notifyCh s in
  let '(ch, h) := make (chans s) in
  (withChans s h, {| signal := notifyCh; out := ch |}).

(** [Store.Cards]: [None] while the receive from [s.ready] blocks, else
    the pointer [s.cards]. *)
Definition Cards (s : t) : option (option Cards.t) :=
  if isClosed (ready s) (chans s) then Some (cards s) else None.

(** The goroutine of a handle: [<-notifyCh; ch <- s.Cards(); close(ch)].
    [None] while it is blocked, else the value it sends. *)
Definition delivers (h : Handle) (s : t) : option (option Cards.t) :=
  if isClosed (signal h) (chans s) then Cards s else None.

Section WithRuntime.
Context `{Runtime}.

(** [maybeUpdate] from the request up to [cards.generateNormalized()]:
    either the cycle ends here with its log line, or a catalog has been
    built. *)
Inductive Fetched :=
| Stale (log : list LogMsg)
| Fresh (cards : Cards.t) (etag : string).

Definition fetch (rt : RoundTrip) (etag : string) : Fetched :=
  match rt etag with
  | DoErr err => Stale [CouldNotUpdate err]
  | DoOk resp =>
      if bool_decide (StatusCode resp = StatusNotModified) then Stale []
      else
        let b := Body resp in
        if negb (bool_decide (StatusCode resp = StatusOK))
        then Stale [UpdateFailed (StatusCode resp) (truncate b 1000)]
        else
          match ReadErr resp with
          | Some rerr => Stale [CouldNotRead rerr]
          | None =>
              match Unmarshal b with
              | inl err => Stale [CouldNotUnmarshal err (truncate b 1000)]
              | inr m =>
                  let cards := Cards.mk m ∅ in
                  Fresh (Cards.generateNormalized cards (rangeOrder m))
                        (Etag resp)
              end
          end
  end.

(** The locked section of [maybeUpdate]; returns [notify]. *)
Definition publish (cards : Cards.t) (etag : string) (s : t) : t * chan :=
  let '(ch, h) := make (chans s) in
  let s := mk (updateFrequency s) (closed s) (ready s) (Some cards) etag ch h in
  let notify := notifyCh s in
  (s, notify).

(** [close(notify)] *)
Definition notifyWaiters (notify : chan) (s : t) : t :=
  withChans s (close notify (chans s)).

(** The select on [s.ready]. *)
Definition fireReady (s : t) : t :=
  if isClosed (ready s) (chans s) then s
  else withChans s (close (ready s) (chans s)).

(** [Store.maybeUpdate], run without interruption. *)
Definition maybeUpdate (rt : RoundTrip) (s : t) : t * list LogMsg :=
  let etag := etag s in
  match fetch rt etag with
  | Stale log => (s, log)
  | Fresh cards etag =>
      let '(s, notify) := publish cards etag s in
      let s := notifyWaiters notify s in
      let s := fireReady s in
      (s, [UpdateSuccessful])
  end.

(** *** The store with its background goroutine

    [watch] runs beside the callers of [Close], [WaitForUpdate] and
    [Cards].  Its position is one of: inside [maybeUpdate] before the
    locked section ([Fetching]); after the unlock, holding [notify]
    ([Published]); after [close(notify)] ([Notified]); blocked in the
    select of [watch] ([Sleeping]); returned ([Exited]).  What
    [maybeUpdate] does before its locked section touches no shared
    state except [s.etag], which only [watch] writes, so it is taken
    in one step together with the locked section. *)
Inductive Watcher :=
| Fetching
| Published (notify : chan)
| Notified
| Sleeping
| Exited.

Record World := { st : t; watcher : Watcher }.

(** [NewStore]: the fresh store, and [go s.watch()] about to call
    [maybeUpdate]. *)
Definition NewStore : World := {| st := init; watcher := Fetching |}.

(** The head of the loop of [watch], reached when [maybeUpdate]
    returns. *)
Definition loopHead (s : t) : Watcher :=
  if (updateFrequency s =? 0)%Z then Exited else Sleeping.

Inductive Action :=
| Fetch (rt : RoundTrip)  (* watch: maybeUpdate up to its unlock, or to its early return *)
| Notify                  (* watch: close(notify) *)
| Ready                   (* watch: the select on s.ready, the log line, the return *)
| Timer                   (* watch: time.After fires while the select is blocked *)
| Stop                    (* watch: the select receives from s.closed *)
| CallClose               (* a caller: Close *)
| CallWaitForUpdate.      (* a caller: WaitForUpdate *)

Inductive Event :=
| Logged (log : list LogMsg)
| Silent
| CloseReturned (err : option string)
| WaitReturned (h : Handle).

(** One step; [None] when the action cannot happen in this state.
    The select of [watch] is blocked on a timer that was started when
    it was entered: if [s.closed] is closed by then or is closed
    first, the select takes that case; [Timer] is the timer firing
    first. *)
Definition step (a : Action) (w : World) : option (World * Event) :=
  let s := st w in
  match a, watcher w with
  | Fetch rt, Fetching =>
      match fetch rt (etag s) with
      | Stale log => Some ({| st := s; watcher := loopHead s |}, Logged log)
      | Fresh cards etag =>
          let '(s, notify) := publish cards etag s in
          Some ({| st := s; watcher := Published notify |}, Silent)
      end
  | Notify, Published notify =>
      Some ({| st := notifyWaiters notify s; watcher := Notified |}, Silent)
  | Ready, Notified =>
      let s := fireReady s in
      Some ({| st := s; watcher := loopHead s |}, Logged [UpdateSuccessful])
  | Timer, Sleeping =>
      if isClosed (closed s) (chans s) then None
      else Some ({| st := s; watcher := Fetching |}, Silent)
  | Stop, Sleeping =>
      if isClosed (closed s) (chans s)
      then Some ({| st := s; watcher := Exited |}, Silent)
      else None
  | CallClose, pc =>
      let '(s, err) := Close s in
      Some ({| st := s; watcher := pc |}, CloseReturned err)
  | CallWaitForUpdate, pc =>
      let '(s, h) := WaitForUpdate s in
      Some ({| st := s; watcher := pc |}, WaitReturned h)
  | _, _ => None
  end.

(** A run: the actions in the order they happen, with what each one
    gives back. *)
Fixpoint run (acts : list Action) (w : World) : option (World * list Event) :=
  match acts with
  | [] => Some (w, [])
  | a :: rest =>
      match step a w with
      | None => None
      | Some (w', ev) =>
          match run rest w' with
          | None => None
          | Some (w'', evs) => Some (w'', ev :: evs)
          end
      end
  end.

End WithRuntime.

End Store.
Abbreviation Store := Store.t.

(** ** Package main: the caller [handleInline] *)

(** [url.QueryEscape]: letters, digits and "-_.~" stay, a space becomes
    "+", every other byte becomes "%XX" in capital hexadecimal. *)
Definition shouldEscape (c : ascii) : bool :=
  let n := strings.code c in
  negb ((97 <=? n) && (n <=? 122) || (65 <=? n) && (n <=? 90)
        || (48 <=? n) && (n <=? 57)
        || (n =? 45) || (n =? 95) || (n =? 46) || (n =? 126))%N.

Definition upperhex (n : N) : ascii :=
  if (n <? 10)%N then ascii_of_N (48 + n) else ascii_of_N (55 + n).

Fixpoint QueryEscape (s : string) : string :=
  match s with
  | EmptyString => ""
  | String c rest =>
      if shouldEscape c then
        if Ascii.eqb c " " then String "+" (QueryEscape rest)
        else String "%" (String (upperhex (N.shiftr (strings.code c) 4))
                           (String (upperhex (N.land (strings.code c) 15))
                              (QueryEscape rest)))
      else String c (QueryEscape rest)
  end.

Definition newline : string := String (ascii_of_N 10) "".

(** The fields of [tg.InlineQueryResultArticle] that [handleInline] sets
    (its [Type] is always "article"), with the text and parse mode of its
    [InputMessageContent]. *)
Record Article := {
  ID : string;
  Title : string;
  Description : string;
  MessageText : string;
  ParseMode : string
}.

Record InlineConfig := { InlineQueryID : string; Results : list Article }.

Definition maxDescription : nat := 100.

(** The body of the loop of [handleInline] after its guard: the article
    for one card.  [%v] prints a slice of strings between brackets, its
    elements separated by spaces. *)
Definition article (c : Card) : Article :=
  let title := Card.Name c +:+ " " +:+ "[" +:+ strings.Join (Card.Types c) " " +:+ "]" in
  let txt := "*" +:+ Card.Name c +:+ "* " +:+ Card.ManaCost c +:+ newline
             +:+ Card.Text c +:+ newline
             +:+ "https://api.scryfall.com/cards/named/?exact="
             +:+ QueryEscape (Card.Name c) +:+ "&format=image" in
  let description := Card.Text c in
  let description :=
    if maxDescription <? String.length description
    then String.substring 0 (maxDescription - 3) description +:+ "..."
    else description in
  {| ID := Card.Name c; Title := title; Description := description;
     MessageText := txt; ParseMode := "Markdown" |}.

(** The loop of [handleInline], with its [break]. *)
Fixpoint inlineLoop (results : list Article) (cards : list Card) : list Article :=
  match cards with
  | [] => results
  | c :: rest =>
      if 10 <? length results then results
      else inlineLoop (results ++ [article c]) rest
  end.

(** How a call of [handleInline] ends: it waits in [Store.Cards]; it
    dereferences a nil catalog; it returns on the error of [Query] without
    answering; or it answers. *)
Inductive Handled :=
| Waiting
| NilCatalog
| Dropped (err : string)
| Answered (reply : InlineConfig).

(** [handleInline], for the inline query [id] with text [query], on the
    store [s]; [visit] is the order in which [Query] ranges over the
    catalog. *)
Definition handleInline (id query : string) (s : Store)
    (visit : list (string * Card)) : Handled :=
  if String.eqb query "" then Answered {| InlineQueryID := id; Results := [] |}
  else
    match Store.Cards s with
    | None => Waiting
    | Some None => NilCatalog
    | Some (Some c) =>
        match Cards.Query c query visit with
        | (_, Some err) => Dropped err
        | (cards, None) =>
            Answered {| InlineQueryID := id; Results := inlineLoop [] cards |}
        end
    end.

(** * The vocabulary of the properties *)

(** ** Parsing and matching *)

Inductive Group := GName | GRule | GType | GColor.

#[global] Instance Group_eq_dec : EqDecision Group.
Proof. solve_decision. Defined.

Definition validLetters : list ascii := ["w"; "u"; "b"; "r"; "g"; "m"]%char.

(** The color predicates a run of letters stands for: the valid letters,
    each as a one-letter string, behind a "!" when negated. *)
Definition lettersToPredicates (neg : bool) (letters : string) : list string :=
  (fun c => if neg then "!" +:+ String c "" else String c "")
    <$> filter (fun c => c ∈ validLetters) (String.list_ascii_of_string letters).

(** The grammar table: the group a token belongs to and the predicates it
    adds there. *)
Definition classify (tok : string) : Group * list string :=
  if String.prefix "o:" tok then (GRule, [strings.ToLower (sliceFrom 2 tok)])
  else if String.prefix "t:" tok then (GType, [strings.ToLower (sliceFrom 2 tok)])
  else if String.prefix "c:" tok
       then (GColor, lettersToPredicates false (strings.ToLower (sliceFrom 2 tok)))
  else if String.prefix "c!" tok
       then (GColor, lettersToPredicates true (strings.ToLower (sliceFrom 2 tok)))
  else (GName, [strings.ToLower tok]).

(** All predicates the tokens add to group [g], in token order. *)
Definition added (g : Group) (toks : list string) : list string :=
  tok ← toks; if decide ((classify tok).1 = g) then (classify tok).2 else [].

Definition group (g : Group) (q : Query) : list string :=
  match g with
  | GName => Query.Name q
  | GRule => Query.Rule q
  | GType => Query.Type_ q
  | GColor => Query.Color q
  end.






(** What the loop of [Cards.Query] has established after visiting
    [visited]: [seen] holds the names of the cards collected; no name was
    collected twice; every card collected was visited and matches; every
    visited card that matches has its name collected. *)
Record QueryLoop (query : Query) (visited : list (string * Card))
    (st : list Card * gmap string bool) : Prop := {
  seen_names : forall n, default false (st.2 !! n) = true <-> In n (map Card.Name st.1);
  once_by_name : List.NoDup (map Card.Name st.1);
  collected_match : forall card, In card st.1 ->
      In card (map snd visited) /\ Query.Match query card = true;
  match_collected : forall card, In card (map snd visited) ->
      Query.Match query card = true -> In (Card.Name card) (map Card.Name st.1)
}.

(** A field that adds no predicate: a color token none of whose letters
    is valid. *)
Definition droppedField (tok : string) : bool :=
  (String.prefix "c:" tok || String.prefix "c!" tok)
  && forallb (fun c => negb (bool_decide (c ∈ validLetters)))
       (String.list_ascii_of_string (strings.ToLower (sliceFrom 2 tok))).

(** A malformed field, as the specification speaks of one: a color token
    with a letter outside w, u, b, r, g, m, or a token that has the look
    of a field (it holds a colon) but begins with none of the prefixes
    "o:", "t:", "c:", "c!".  A query is malformed when one of its fields
    is. *)
Definition malformedField (tok : string) : bool :=
  if String.prefix "c:" tok || String.prefix "c!" tok
  then existsb (fun c => negb (bool_decide (c ∈ validLetters)))
         (String.list_ascii_of_string (strings.ToLower (sliceFrom 2 tok)))
  else negb (String.prefix "o:" tok || String.prefix "t:" tok)
       && strings.Contains tok ":".

Definition malformed (q : string) : bool :=
  existsb malformedField (strings.Fields q).

(** ** The normalized index *)

Definition primaryKey (card : Card) : string :=
  strings.ToLower (normalizeCardName (Card.Name card)).

Definition joinedKey (names : list string) (sep : string) : string :=
  strings.ToLower (strings.Join names sep).

Definition separators : list string := [" & "; " / "; " // "].

(** The keys under which a card is entered: its component names joined by
    each separator when it has any, and its primary name. *)
Definition keysOf (card : Card) : list string :=
  match Card.Names card with
  | [] => []
  | names => joinedKey names <$> separators
  end ++ [primaryKey card].

Definition produces (key : string) (card : Card) : bool :=
  bool_decide (key ∈ keysOf card).

(** The last card of a visiting order that is entered under [key]. *)
Fixpoint lastProducer (key : string) (visit : list (string * Card)) : option Card :=
  match visit with
  | [] => None
  | e :: rest =>
      match lastProducer key rest with
      | Some card => Some card
      | None => if produces key e.2 then Some e.2 else None
      end
  end.

Fixpoint isASCII (s : string) : bool :=
  match s with
  | EmptyString => true
  | String c s' => (strings.code c <? 128)%N && isASCII s'
  end.














(** ** The store and its goroutine *)

Section StoreVocabulary.
Context `{Runtime}.

Import Store.

Definition settled (pc : Watcher) : Prop :=
  pc = Fetching \/ pc = Sleeping \/ pc = Exited.

(** What holds of the store and its goroutine at every moment.  [ready] and
    [closed] are the first two channels made and [notifyCh] started as the
    third; that third channel is never closed.  [s.notifyCh] is closed
    already, except before the first publication, and between a publication
    and the [close(notify)] that follows it. *)
Record Inv (w : World) : Prop := {
  inv_ready : ready (st w) = 0;
  inv_closed : closed (st w) = 1;
  inv_next : 3 <= next (chans (st w));
  inv_notify_lt : notifyCh (st w) < next (chans (st w));
  inv_fired_lt : forall ch, ch ∈ fired (chans (st w)) -> ch < next (chans (st w));
  inv_first : 2 ∉ fired (chans (st w));
  inv_cards : cards (st w) = None <-> notifyCh (st w) = 2;
  inv_notify :
    match watcher w with
    | Published n => n = notifyCh (st w) /\ (n ∉ fired (chans (st w))) /\ 3 <= n
    | _ => notifyCh (st w) = 2 \/ notifyCh (st w) ∈ fired (chans (st w))
    end;
  inv_published :
    match watcher w with
    | Published _ | Notified => cards (st w) <> None
    | _ => True
    end;
  inv_ready_cards : 0 ∈ fired (chans (st w)) -> cards (st w) <> None;
  inv_settled : settled (watcher w) -> cards (st w) <> None ->
                0 ∈ fired (chans (st w))
}.

(** What the calls of [Close] in a run returned, in order. *)
Definition closeResults (evs : list Event) : list (option string) :=
  omap (fun ev => match ev with CloseReturned err => Some err | _ => None end) evs.

Definition isCallClose (a : Action) : bool :=
  match a with
  | CallClose => true
  | _ => false
  end.

Definition succeeded (ev : Event) : Prop :=
  exists log, ev = Logged log /\ In UpdateSuccessful log.

(** A refresh cycle that does not succeed, by what went wrong. *)
Definition failedCycle (r : HttpResult) : Prop :=
  match r with
  | DoErr _ => True                                       (* transport failure *)
  | DoOk resp =>
      StatusCode resp = 304%Z                              (* not modified *)
      \/ ~ (200 <= StatusCode resp < 300)%Z                (* non-2xx status *)
      \/ is_Some (ReadErr resp)                            (* body read failure *)
      \/ (exists err, Unmarshal (Body resp) = inl err)     (* decode failure *)
  end.

End StoreVocabulary.

(** ** Query results and index collisions *)

(** The cards of a list that are the first of their name, given the names
    already [seen]. *)
Fixpoint firstByName (seen : list string) (cards : list Card) : list Card :=
  match cards with
  | [] => []
  | card :: rest =>
      if bool_decide (Card.Name card ∈ seen)
      then firstByName seen rest
      else card :: firstByName (Card.Name card :: seen) rest
  end.

Definition matching (query : Query) (cards : list Card) : list Card :=
  filter (fun card => Query.Match query card = true) cards.

(** No key is shared by two different cards. *)
Definition collisionFree (cards : list Card) : Prop :=
  forall c1 c2 key, In c1 cards -> In c2 cards ->
    In key (keysOf c1) -> In key (keysOf c2) -> c1 = c2.

(** ** Counting the refresh cycles of a run *)

Section CycleVocabulary.
Context `{Runtime}.

Import Store.

Definition isFetch (a : Action) : bool :=
  match a with
  | Fetch _ => true
  | _ => false
  end.

(** The refresh cycles that start their request in a run. *)
Definition countFetch (acts : list Action) : nat :=
  length (List.filter isFetch acts).

(** The requests the goroutine may still start without being woken. *)
Definition fetchBudget (pc : Watcher) : nat :=
  match pc with
  | Fetching => 1
  | _ => 0
  end.

End CycleVocabulary.

(** ** Fixtures *)

Definition newCard (name : string) (names colors : list string)
    (type text : string) : Card :=
  Card.mk name names "" 0 colors colors type [] [] [] "" text "" "" "" [] [] [].

(** Two cards whose names differ only in case. *)
Definition fireball : Card := newCard "Fireball" [] ["Red"] "Sorcery" "".
Definition fireballCaps : Card := newCard "FIREBALL" [] ["Red"] "Sorcery" "".

Definition twins : Cards :=
  Cards.mk (<["FIREBALL" := fireballCaps]> (<["Fireball" := fireball]> ∅)) ∅.

Definition twinsVisit : list (string * Card) :=
  [("Fireball", fireball); ("FIREBALL", fireballCaps)].

(** The two halves of a split card, as the feed lists them: each half is a
    card of its own and carries both component names. *)
Definition fire : Card := newCard "Fire" ["Fire"; "Ice"] ["Red"] "Instant" "".
Definition ice : Card := newCard "Ice" ["Fire"; "Ice"] ["Blue"] "Instant" "".

Definition split : Cards :=
  Cards.mk (<["Ice" := ice]> (<["Fire" := fire]> ∅)) ∅.

Definition splitVisit : list (string * Card) := [("Fire", fire); ("Ice", ice)].

Definition aetherVial : Card := newCard "Æther Vial" [] [] "Artifact" "".

Definition vials : gmap string Card := <["Æther Vial" := aetherVial]> ∅.

Definition vialsVisit : list (string * Card) := [("Æther Vial", aetherVial)].







(** A feed of one card, as the remote source serves it, and a stand-in for
    [json.Unmarshal] that knows this feed and the empty object. *)
Definition dq : string := String (ascii_of_N 34) "".

Definition quoted (s : string) : string := dq +:+ s +:+ dq.

Definition shock : Card := newCard "Shock" [] [] "Instant" "".

Definition shockFeed : string :=
  "{" +:+ quoted "Shock" +:+ ":{" +:+ quoted "name" +:+ ":" +:+ quoted "Shock"
      +:+ "," +:+ quoted "type" +:+ ":" +:+ quoted "Instant" +:+ "}}".

Definition fixtureRuntime : Runtime := {|
  Unmarshal b :=
    if String.eqb b "{}" then inr ∅
    else if String.eqb b shockFeed then inr (<["Shock" := shock]> ∅)
    else inl "invalid character";
  rangeOrder m := map_to_list m
|}.

(** A remote source that holds [body] under the validator [version]. *)
Definition server (version body : string) : RoundTrip :=
  fun ifNoneMatch =>
    if String.eqb ifNoneMatch version
    then DoOk {| StatusCode := 304; Body := ""; ReadErr := None; Etag := version |}
    else DoOk {| StatusCode := 200; Body := body; ReadErr := None; Etag := version |}.

Definition unavailable : RoundTrip :=
  fun _ => DoOk {| StatusCode := 503; Body := "Service Unavailable";
                   ReadErr := None; Etag := "" |}.

Definition shockCatalog : Cards :=
  Cards.mk (<["Shock" := shock]> ∅) (<["shock" := shock]> ∅).

(** The first refresh, from the request to the ready signal. *)
Definition firstRefresh : list Store.Action :=
  [Store.Fetch (server "v1" shockFeed); Store.Notify; Store.Ready].

(** A catalog of two cards that share no key. *)
Definition library : gmap string Card :=
  <["Shock" := shock]> (<["Æther Vial" := aetherVial]> ∅).

Definition libraryVisit : list (string * Card) :=
  [("Shock", shock); ("Æther Vial", aetherVial)].

(** A flip card whose first name is spelled with a right single quote. *)
Definition hive : Card :=
  newCard "Hive’s Edge" ["Hive’s Edge"; "Sting"] [] "Creature" "".

Definition hives : gmap string Card := <["Hive’s Edge" := hive]> ∅.

Definition hivesVisit : list (string * Card) := [("Hive’s Edge", hive)].

(** A store as [NewStore] makes it, but with a zero interval. *)
Definition singleShot : Store :=
  Store.mk 0 (Store.closed Store.init) (Store.ready Store.init) None ""
    (Store.notifyCh Store.init) (Store.chans Store.init).

(** * Properties *)

(** ** The query engine *)

(** *** ParseQuery: every field goes to one predicate group *)

Lemma validColor_letters c : validColor c = bool_decide (c ∈ validLetters).
Proof.
  destruct c as [[] [] [] [] [] [] [] []]; vm_compute; reflexivity.
Qed.

Lemma colorPredicates_letters neg letters :
  colorPredicates neg letters = lettersToPredicates neg letters.
Proof.
  unfold lettersToPredicates.
  induction letters as [|c rest IH]; [reflexivity|].
  cbn [colorPredicates String.list_ascii_of_string].
  rewrite filter_cons, validColor_letters.
  case_bool_decide as Hc.
  - rewrite decide_True by exact Hc. rewrite fmap_cons, IH.
    destruct neg; reflexivity.
  - rewrite decide_False by exact Hc. exact IH.
Qed.

Lemma parseField_group g q tok :
  group g (parseField q tok)
  = group g q ++ (if decide ((classify tok).1 = g) then (classify tok).2 else []).
Proof.
  unfold parseField, classify, strings.HasPrefix.
  rewrite !colorPredicates_letters.
  destruct (String.prefix "o:" tok);
    [|destruct (String.prefix "t:" tok);
      [|destruct (String.prefix "c:" tok);
        [|destruct (String.prefix "c!" tok)]]];
    destruct g; cbn; rewrite ?app_nil_r; reflexivity.
Qed.

Lemma parse_fields_group g toks : forall q,
  group g (foldl parseField q toks) = group g q ++ added g toks.
Proof.
  induction toks as [|tok toks IH]; intros q; cbn [foldl].
  - unfold added. cbn. rewrite app_nil_r. reflexivity.
  - rewrite IH, parseField_group. unfold added.
    rewrite bind_cons, app_assoc. reflexivity.
Qed.

(** C9. [ParseQuery] puts every whitespace-separated token into exactly one
    predicate group: each group of the parsed query is, in token order,
    what the grammar table [classify] makes of the tokens it sends there
    ("o:" a lowercased rule predicate, "t:" a type predicate, "c:" and "c!"
    one plain or negated color predicate per valid letter, anything else a
    lowercased name predicate). *)
Theorem ParseQuery_classifies_tokens (s : string) (g : Group) :
  group g (ParseQuery s) = added g (strings.Fields s).
Proof.
  unfold ParseQuery. rewrite parse_fields_group. destruct g; reflexivity.
Qed.

(** An unknown field-like prefix is free text; only valid letters make
    color predicates. *)
Example classify_unknown_prefix :
  classify "x:Flying" = (GName, ["x:flying"])
  /\ classify "c:WxU" = (GColor, ["w"; "u"])
  /\ classify "c!rz" = (GColor, ["!r"])
  /\ ParseQuery "c:wux t:Instant o:Foo shock c!R x:y"
     = Query.mk ["shock"; "x:y"] ["foo"] ["instant"] ["w"; "u"; "!r"].
Proof. vm_compute. repeat split. Qed.

(** *** Match: the color group *)












(** *** Cards.Query *)

Lemma foldl_invariant {A B} (f : A -> B -> A) (P : list B -> A -> Prop) (a0 : A) :
  P [] a0 ->
  (forall l a b, P l a -> P (l ++ [b]) (f a b)) ->
  forall l, P l (foldl f a0 l).
Proof.
  intros H0 Hstep l. induction l as [|b l IH] using rev_ind; [exact H0|].
  rewrite foldl_app. cbn [foldl]. apply Hstep, IH.
Qed.

Lemma QueryLoop_start query : QueryLoop query [] ([], ∅).
Proof.
  split; cbn.
  - intros n. rewrite lookup_empty. cbn. split; [discriminate|tauto].
  - constructor.
  - tauto.
  - tauto.
Qed.

Lemma QueryLoop_step query visited st e :
  QueryLoop query visited st ->
  QueryLoop query (visited ++ [e]) (Cards.queryStep query st e.2).
Proof.
  intros [Hseen Hnd Hcm Hmc]. destruct st as [acc seen], e as [k card].
  cbn [fst snd] in *. unfold Cards.queryStep.
  destruct (Query.Match query card) eqn:Hm;
    [destruct (default false (seen !! Card.Name card)) eqn:Hs|]; cbn [andb negb].
  - (* matches, name already collected *)
    split; cbn [fst snd]; [exact Hseen|exact Hnd| |].
    + intros c Hc. destruct (Hcm c Hc) as [Hv Hm']. split; [|exact Hm'].
      rewrite map_app. apply in_or_app. left. exact Hv.
    + intros c Hc Hmc'. rewrite map_app in Hc. apply in_app_or in Hc as [Hc|Hc].
      * apply Hmc; assumption.
      * cbn in Hc. destruct Hc as [<-|[]]. apply Hseen. exact Hs.
  - (* matches, new name *)
    split; cbn [fst snd].
    + intros n. rewrite map_app, in_app_iff. cbn [map In].
      destruct (decide (Card.Name card = n)) as [<-|Hne].
      * rewrite lookup_insert_eq. cbn. tauto.
      * rewrite lookup_insert_ne by exact Hne. rewrite Hseen. tauto.
    + rewrite map_app. cbn [map]. apply NoDup_ListNoDup, NoDup_app.
      split; [apply NoDup_ListNoDup, Hnd|]. split; [|apply NoDup_singleton].
      intros n Hn Hn'. apply list_elem_of_singleton in Hn'. subst n.
      apply list_elem_of_In, Hseen in Hn. congruence.
    + intros c Hc. rewrite map_app. apply in_app_or in Hc as [Hc|Hc].
      * destruct (Hcm c Hc) as [Hv Hm']. split; [|exact Hm'].
        apply in_or_app. left. exact Hv.
      * cbn in Hc. destruct Hc as [<-|[]]. split; [|exact Hm].
        apply in_or_app. right. left. reflexivity.
    + intros c Hc Hmc'. rewrite map_app in Hc |- *. apply in_or_app.
      apply in_app_or in Hc as [Hc|Hc].
      * left. apply Hmc; assumption.
      * cbn in Hc. destruct Hc as [<-|[]]. right. left. reflexivity.
  - (* does not match *)
    split; cbn [fst snd]; [exact Hseen|exact Hnd| |].
    + intros c Hc. destruct (Hcm c Hc) as [Hv Hm']. split; [|exact Hm'].
      rewrite map_app. apply in_or_app. left. exact Hv.
    + intros c Hc Hmc'. rewrite map_app in Hc. apply in_app_or in Hc as [Hc|Hc].
      * apply Hmc; assumption.
      * cbn in Hc. destruct Hc as [<-|[]]. congruence.
Qed.

Lemma Query_loop query visit :
  QueryLoop query visit
    (foldl (fun st e => Cards.queryStep query st e.2) ([], ∅) visit).
Proof.
  apply (foldl_invariant _ (QueryLoop query)).
  - apply QueryLoop_start.
  - intros l a b. apply QueryLoop_step.
Qed.

Lemma MapRange_values {V} (m : gmap string V) visit (v : V) :
  MapRange m visit -> (In v (map snd visit) <-> exists k, m !! k = Some v).
Proof.
  unfold MapRange. intros Hp. rewrite <- list_elem_of_In, list_elem_of_fmap.
  split.
  - intros [[k v'] [-> Hin]]. exists k. rewrite Hp in Hin.
    apply elem_of_map_to_list in Hin. exact Hin.
  - intros [k Hk]. exists (k, v). split; [reflexivity|].
    rewrite Hp. apply elem_of_map_to_list. exact Hk.
Qed.

Lemma color_prefix_exclusive tok :
  String.prefix "c:" tok || String.prefix "c!" tok = true ->
  String.prefix "o:" tok = false /\ String.prefix "t:" tok = false.
Proof.
  destruct tok as [|a rest]; [discriminate|].
  cbn [String.prefix]. destruct (ascii_dec "c" a) as [<-|Hc].
  - intros _. split; reflexivity.
  - discriminate.
Qed.

Lemma no_valid_letter neg letters :
  forallb (fun c => negb (bool_decide (c ∈ validLetters)))
    (String.list_ascii_of_string letters) = true ->
  lettersToPredicates neg letters = [].
Proof.
  unfold lettersToPredicates. intros Hall.
  induction (String.list_ascii_of_string letters) as [|c l IH]; [reflexivity|].
  cbn [forallb] in Hall. apply andb_prop in Hall as [Hc Hl].
  rewrite filter_cons. apply negb_true_iff, bool_decide_eq_false in Hc.
  rewrite decide_False by exact Hc. apply IH, Hl.
Qed.

Lemma dropped_adds_nothing g tok :
  droppedField tok = true ->
  (if decide ((classify tok).1 = g) then (classify tok).2 else []) = [].
Proof.
  unfold droppedField. intros Hm. apply andb_prop in Hm as [Hp Hl].
  destruct (color_prefix_exclusive _ Hp) as [Ho Ht].
  unfold classify. rewrite Ho, Ht.
  destruct (String.prefix "c:" tok); [|destruct (String.prefix "c!" tok); [|discriminate]];
    cbn [fst snd]; rewrite (no_valid_letter _ _ Hl); destruct (decide _); reflexivity.
Qed.

Lemma dropped_query_empty s :
  forallb droppedField (strings.Fields s) = true ->
  ParseQuery s = Query.mk [] [] [] [].
Proof.
  intros Hall.
  assert (Hg : forall g, group g (ParseQuery s) = []).
  { intros g. unfold ParseQuery. rewrite parse_fields_group.
    replace (group g (Query.mk [] [] [] [])) with (@nil string) by (destruct g; reflexivity).
    cbn [app]. unfold added.
    induction (strings.Fields s) as [|tok toks IH]; [reflexivity|].
    cbn [forallb] in Hall. apply andb_prop in Hall as [Htok Htoks].
    rewrite bind_cons, (dropped_adds_nothing _ _ Htok). apply IH, Htoks. }
  pose proof (Hg GName) as Hn. pose proof (Hg GRule) as Hr.
  pose proof (Hg GType) as Ht. pose proof (Hg GColor) as Hc.
  destruct (ParseQuery s); cbn in Hn, Hr, Ht, Hc. congruence.
Qed.

Lemma some_valid_letter neg letters :
  lettersToPredicates neg letters = [] ->
  forallb (fun c => negb (bool_decide (c ∈ validLetters)))
    (String.list_ascii_of_string letters) = true.
Proof.
  unfold lettersToPredicates.
  induction (String.list_ascii_of_string letters) as [|c l IH]; [reflexivity|].
  rewrite filter_cons. cbn [forallb]. case_bool_decide as Hc.
  - rewrite decide_True by exact Hc. rewrite fmap_cons. discriminate.
  - rewrite decide_False by exact Hc. intros Hl. apply IH, Hl.
Qed.

(** Only a dropped field adds nothing. *)
Lemma adds_nothing_dropped tok : (classify tok).2 = [] -> droppedField tok = true.
Proof.
  unfold classify, droppedField.
  destruct (String.prefix "o:" tok); [discriminate|].
  destruct (String.prefix "t:" tok); [discriminate|].
  destruct (String.prefix "c:" tok); cbn [fst snd orb andb];
    [apply some_valid_letter|].
  destruct (String.prefix "c!" tok); cbn [fst snd orb andb];
    [apply some_valid_letter|discriminate].
Qed.

(** What a field contributes is in its group of the parsed query. *)
Lemma field_predicates q tok p :
  In tok (strings.Fields q) -> In p (classify tok).2 ->
  In p (group (classify tok).1 (ParseQuery q)).
Proof.
  intros Htok Hp. unfold ParseQuery. rewrite parse_fields_group.
  apply in_or_app. right. unfold added.
  apply list_elem_of_In, list_elem_of_bind. exists tok.
  split; [|apply list_elem_of_In, Htok].
  rewrite decide_True by reflexivity. apply list_elem_of_In, Hp.
Qed.

Lemma empty_query_dropped q :
  ParseQuery q = Query.mk [] [] [] [] ->
  forallb droppedField (strings.Fields q) = true.
Proof.
  intros Hempty. apply forallb_forall. intros tok Htok.
  apply adds_nothing_dropped.
  destruct (classify tok).2 as [|p ps] eqn:Hps; [reflexivity|].
  pose proof (field_predicates q tok p Htok) as Hin.
  rewrite Hps, Hempty in Hin. specialize (Hin (or_introl eq_refl)).
  destruct (classify tok).1; contradiction.
Qed.

(** A malformed field that is no color token is a name predicate. *)
Lemma malformed_name_field tok :
  malformedField tok = true ->
  String.prefix "c:" tok || String.prefix "c!" tok = false ->
  classify tok = (GName, [strings.ToLower tok]).
Proof.
  unfold malformedField, classify. intros Hm Hc. rewrite Hc in Hm.
  apply orb_false_elim in Hc as [Hc1 Hc2]. rewrite Hc1, Hc2.
  apply andb_prop in Hm as [Hot _]. apply negb_true_iff, orb_false_elim in Hot as [Ho Ht].
  rewrite Ho, Ht. reflexivity.
Qed.

(** C8. [Cards.Query] on any catalog and any query string returns a
    sequence and the nil error.  No two cards of the result share a name;
    every card of the result is a card of the catalog that matches the
    parsed query; every matching card of the catalog is in the result up to
    its name.  No query is rejected, but a malformed one does not in
    general match everything.  The query parses to four empty predicate
    groups exactly when each of its fields is a color token without a
    valid letter, and then every card of the catalog matches.  A malformed
    field that is no color token is kept, lowercased, as a name predicate,
    and the name of every card of the result contains it; a color token
    keeps the predicates of its valid letters. *)
Theorem Query_returns_matches_once (c : Cards) (q : string)
    (visit : list (string * Card)) :
  MapRange (Cards.M c) visit ->
  exists res : list Card,
    Cards.Query c q visit = (res, None)
    /\ List.NoDup (map Card.Name res)
    /\ (forall card, In card res ->
          (exists k, Cards.M c !! k = Some card)
          /\ Query.Match (ParseQuery q) card = true)
    /\ (forall k card, Cards.M c !! k = Some card ->
          Query.Match (ParseQuery q) card = true ->
          exists card', In card' res /\ Card.Name card' = Card.Name card)
    /\ (ParseQuery q = Query.mk [] [] [] []
        <-> forallb droppedField (strings.Fields q) = true)
    /\ (ParseQuery q = Query.mk [] [] [] [] ->
          forall k card, Cards.M c !! k = Some card ->
            Query.Match (ParseQuery q) card = true
            /\ In (Card.Name card) (map Card.Name res))
    /\ (forall tok, In tok (strings.Fields q) -> malformedField tok = true ->
          if String.prefix "c:" tok || String.prefix "c!" tok
          then forall p, In p (classify tok).2 -> In p (Query.Color (ParseQuery q))
          else In (strings.ToLower tok) (Query.Name (ParseQuery q))
               /\ forall card, In card res ->
                    strings.Contains (strings.ToLower (Card.Name card))
                      (strings.ToLower tok) = true).
Proof.
  intros Hrange. unfold Cards.Query.
  pose proof (Query_loop (ParseQuery q) visit) as [Hseen Hnd Hcm Hmc].
  destruct (foldl _ _ visit) as [res seen]. cbn [fst snd] in *.
  exists res. split; [reflexivity|]. split; [exact Hnd|].
  assert (Hall : forall k card, Cards.M c !! k = Some card ->
            Query.Match (ParseQuery q) card = true ->
            In (Card.Name card) (map Card.Name res)).
  { intros k card Hk Hm. apply Hmc; [|exact Hm].
    apply (MapRange_values _ _ _ Hrange). eauto. }
  split; [|split; [|split; [|split]]].
  - intros card Hin. destruct (Hcm card Hin) as [Hv Hm]. split; [|exact Hm].
    apply (MapRange_values _ _ _ Hrange), Hv.
  - intros k card Hk Hm. pose proof (Hall k card Hk Hm) as Hin.
    apply in_map_iff in Hin as [card' [Hn Hin]]. eauto.
  - split; [apply empty_query_dropped|apply dropped_query_empty].
  - intros Hempty k card Hk.
    assert (Hm : Query.Match (ParseQuery q) card = true) by (rewrite Hempty; reflexivity).
    split; [exact Hm|]. apply (Hall k card Hk Hm).
  - intros tok Htok Hbad.
    destruct (String.prefix "c:" tok || String.prefix "c!" tok) eqn:Hcol.
    + intros p Hp. pose proof (field_predicates q tok p Htok Hp) as Hin.
      assert (Hg : (classify tok).1 = GColor).
      { unfold classify. destruct (color_prefix_exclusive _ Hcol) as [Ho Ht].
        rewrite Ho, Ht. destruct (String.prefix "c:" tok); [reflexivity|].
        cbn [orb] in Hcol. rewrite Hcol. reflexivity. }
      rewrite Hg in Hin. exact Hin.
    + pose proof (malformed_name_field tok Hbad Hcol) as Hcl.
      pose proof (field_predicates q tok (strings.ToLower tok) Htok) as Hin.
      rewrite Hcl in Hin. cbn [fst snd group] in Hin.
      specialize (Hin (or_introl eq_refl)). split; [exact Hin|].
      intros card Hcard. destruct (Hcm card Hcard) as [_ Hm].
      unfold Query.Match in Hm.
      apply andb_prop in Hm as [Hm _]. apply andb_prop in Hm as [Hm _].
      apply andb_prop in Hm as [Hm _].
      exact (proj1 (forallb_forall _ _) Hm _ Hin).
Qed.

(** A malformed query that matches nothing: the field "x:y" becomes the
    name predicate "x:y"; in "c:uz" the letter "u" stays. *)
Lemma malformed_query_matches_nothing :
  malformed "x:y" = true
  /\ ParseQuery "x:y" = Query.mk ["x:y"] [] [] []
  /\ Cards.Query twins "x:y" twinsVisit = ([], None)
  /\ malformed "c:uz" = true
  /\ ParseQuery "c:uz" = Query.mk [] [] [] ["u"]
  /\ Cards.Query twins "c:uz" twinsVisit = ([], None)
  /\ size (Cards.M twins) = 2.
Proof. repeat split; vm_compute; reflexivity. Qed.

(** ** The normalized index *)

Lemma indexCard_lookup (n : gmap string Card) card key :
  Cards.indexCard n card !! key = if produces key card then Some card else n !! key.
Proof.
  unfold Cards.indexCard, produces, keysOf, primaryKey, joinedKey, separators.
  destruct (Card.Names card) as [|a names];
    cbn [length Nat.eqb negb fmap list_fmap app]; rewrite !lookup_insert.
  - destruct (decide (strings.ToLower (normalizeCardName (Card.Name card)) = key)) as [<-|Hp].
    + rewrite bool_decide_eq_true_2 by (apply list_elem_of_singleton; reflexivity).
      reflexivity.
    + rewrite bool_decide_eq_false_2; [reflexivity|].
      intros Hin. apply list_elem_of_singleton in Hin. congruence.
  - destruct (decide (strings.ToLower (normalizeCardName (Card.Name card)) = key)) as [<-|Hp].
    { rewrite bool_decide_eq_true_2; [reflexivity|].
      do 3 apply list_elem_of_further. apply list_elem_of_here. }
    destruct (decide (strings.ToLower (strings.Join (a :: names) " // ") = key)) as [<-|H3].
    { rewrite bool_decide_eq_true_2; [reflexivity|].
      do 2 apply list_elem_of_further. apply list_elem_of_here. }
    destruct (decide (strings.ToLower (strings.Join (a :: names) " / ") = key)) as [<-|H2].
    { rewrite bool_decide_eq_true_2; [reflexivity|].
      apply list_elem_of_further, list_elem_of_here. }
    destruct (decide (strings.ToLower (strings.Join (a :: names) " & ") = key)) as [<-|H1].
    { rewrite bool_decide_eq_true_2; [reflexivity|]. apply list_elem_of_here. }
    rewrite bool_decide_eq_false_2; [reflexivity|].
    rewrite !elem_of_cons, elem_of_nil. intuition congruence.
Qed.

Lemma generateNormalized_lookup (c : Cards) visit key :
  Cards.normalized (Cards.generateNormalized c visit) !! key
  = match lastProducer key visit with
    | Some card => Some card
    | None => Cards.normalized c !! key
    end.
Proof.
  unfold Cards.generateNormalized. cbn [Cards.normalized].
  generalize (Cards.normalized c) as n.
  induction visit as [|e rest IH]; intros n; cbn [foldl lastProducer]; [reflexivity|].
  rewrite IH. destruct (lastProducer key rest); [reflexivity|].
  rewrite indexCard_lookup. destruct (produces key e.2); reflexivity.
Qed.

Lemma lastProducer_app key before after :
  lastProducer key (before ++ after)
  = match lastProducer key after with
    | Some card => Some card
    | None => lastProducer key before
    end.
Proof.
  induction before as [|e before IH]; cbn [app lastProducer].
  - destruct (lastProducer key after); reflexivity.
  - rewrite IH. destruct (lastProducer key after); reflexivity.
Qed.

Lemma lastProducer_Some key visit winner :
  lastProducer key visit = Some winner ->
  In key (keysOf winner) /\ In winner (map snd visit).
Proof.
  induction visit as [|e rest IH]; cbn [lastProducer]; [discriminate|].
  destruct (lastProducer key rest) as [w|].
  - intros Hw. destruct (IH Hw) as [Hk Hin]. split; [exact Hk|]. right. exact Hin.
  - unfold produces. case_bool_decide as Hk; [|discriminate].
    intros [= <-]. split; [apply list_elem_of_In, Hk|]. left. reflexivity.
Qed.

Lemma lastProducer_None key visit :
  lastProducer key visit = None <->
  forall e, In e visit -> ~ In key (keysOf e.2).
Proof.
  induction visit as [|e rest IH]; cbn [lastProducer].
  - split; [intros _ e []|reflexivity].
  - destruct (lastProducer key rest) as [w|] eqn:Hw.
    + split; [discriminate|]. intros Hall. exfalso.
      destruct (lastProducer_Some _ _ _ Hw) as [Hk Hin].
      apply in_map_iff in Hin as [e' [<- Hin]]. apply (Hall e'); [right; exact Hin|exact Hk].
    + unfold produces. case_bool_decide as Hk.
      * split; [discriminate|]. intros Hall. exfalso.
        apply (Hall e); [left; reflexivity|apply list_elem_of_In, Hk].
      * split; [|reflexivity]. intros _ e' [<-|Hin].
        -- rewrite <- list_elem_of_In. exact Hk.
        -- apply IH; [reflexivity|exact Hin].
Qed.

(** The entry of a key that a catalog card produces: it exists, it goes to
    the last visited card that produces the key, and that is the card
    itself when no card visited after it produces the key. *)
Lemma indexed_key (c : Cards) visit k card key :
  MapRange (Cards.M c) visit ->
  Cards.M c !! k = Some card ->
  In key (keysOf card) ->
  exists before after,
    visit = before ++ (k, card) :: after
    /\ (exists winner,
          Cards.normalized (Cards.generateNormalized c visit) !! key = Some winner
          /\ lastProducer key visit = Some winner
          /\ In key (keysOf winner)
          /\ exists k', Cards.M c !! k' = Some winner)
    /\ ((forall e, In e after -> ~ In key (keysOf e.2)) ->
        Cards.normalized (Cards.generateNormalized c visit) !! key = Some card).
Proof.
  intros Hrange Hk Hkey.
  assert (Hin : (k, card) ∈ visit).
  { unfold MapRange in Hrange. rewrite Hrange. apply elem_of_map_to_list, Hk. }
  apply list_elem_of_split in Hin as (before & after & ->).
  exists before, after. split; [reflexivity|].
  assert (Hhere : lastProducer key ((k, card) :: after)
                  = match lastProducer key after with
                    | Some w => Some w
                    | None => Some card
                    end).
  { cbn [lastProducer snd]. unfold produces.
    rewrite bool_decide_eq_true_2 by (apply list_elem_of_In, Hkey). reflexivity. }
  split.
  - assert (Hw : exists winner, lastProducer key (before ++ (k, card) :: after) = Some winner).
    { rewrite lastProducer_app, Hhere. destruct (lastProducer key after); eauto. }
    destruct Hw as [winner Hw]. exists winner.
    rewrite generateNormalized_lookup, Hw.
    destruct (lastProducer_Some _ _ _ Hw) as [Hkw Hvw].
    repeat split; try assumption; try reflexivity.
    apply (MapRange_values _ _ _ Hrange), Hvw.
  - intros Hlater. apply lastProducer_None in Hlater.
    rewrite generateNormalized_lookup, lastProducer_app, Hhere, Hlater. reflexivity.
Qed.

Ltac map_range :=
  unfold MapRange;
  match goal with
  | |- _ ≡ₚ map_to_list ?m =>
      let l := eval vm_compute in (map_to_list m) in
      change (map_to_list m) with l
  end;
  first [reflexivity | apply perm_swap].

Lemma twins_range : MapRange (Cards.M twins) twinsVisit.
Proof. map_range. Qed.

Lemma split_range : MapRange (Cards.M split) splitVisit.
Proof. map_range. Qed.

Lemma primaryKey_in_keysOf card : In (primaryKey card) (keysOf card).
Proof. unfold keysOf. apply in_or_app. right. left. reflexivity. Qed.

(** C4, as amended.  In a catalog whose index was built over the visiting
    order [visit], every card of the primary map has an entry under its
    primary name, character-normalized and case-folded.  The entry holds
    the last visited card that is entered under that key, itself a card of
    the primary map; it holds the card itself when no card visited after
    it is entered under the same key. *)
Theorem normalized_primary_name (c : Cards) (visit : list (string * Card))
    (k : string) (card : Card) :
  MapRange (Cards.M c) visit ->
  Cards.M c !! k = Some card ->
  exists before after,
    visit = before ++ (k, card) :: after
    /\ (exists winner,
          Cards.normalized (Cards.generateNormalized c visit)
            !! strings.ToLower (normalizeCardName (Card.Name card)) = Some winner
          /\ lastProducer (primaryKey card) visit = Some winner
          /\ In (primaryKey card) (keysOf winner)
          /\ exists k', Cards.M c !! k' = Some winner)
    /\ ((forall e, In e after -> ~ In (primaryKey card) (keysOf e.2)) ->
        Cards.LookupNormalized (Cards.generateNormalized c visit) (Card.Name card)
        = Some card).
Proof.
  intros Hrange Hk.
  exact (indexed_key c visit k card (primaryKey card) Hrange Hk (primaryKey_in_keysOf card)).
Qed.

(** The claim as first stated fails when two names fold to one key: the
    entry for "Fireball" holds the card "FIREBALL". *)
Lemma primary_name_collision :
  MapRange (Cards.M twins) twinsVisit
  /\ Cards.M twins !! "Fireball" = Some fireball
  /\ Cards.normalized (Cards.generateNormalized twins twinsVisit)
       !! strings.ToLower (normalizeCardName (Card.Name fireball)) = Some fireballCaps
  /\ fireballCaps <> fireball.
Proof.
  split; [exact twins_range|]. split; [reflexivity|]. split.
  - vm_compute. reflexivity.
  - discriminate.
Qed.

(** Whatever the visiting order, one of the two cards is not found under
    its own name. *)
Example primary_name_collision_any_order (visit : list (string * Card)) :
  exists k card,
    Cards.M twins !! k = Some card
    /\ Cards.normalized (Cards.generateNormalized twins visit) !! primaryKey card
       <> Some card.
Proof.
  destruct (Cards.normalized (Cards.generateNormalized twins visit) !! "fireball")
    as [w|] eqn:Hw.
  - destruct (decide (Card.Name w = "Fireball")) as [Hn|Hn].
    + exists "FIREBALL", fireballCaps. split; [reflexivity|].
      change (primaryKey fireballCaps) with "fireball". rewrite Hw.
      intros [= ->]. discriminate.
    + exists "Fireball", fireball. split; [reflexivity|].
      change (primaryKey fireball) with "fireball". rewrite Hw.
      intros [= ->]. apply Hn. reflexivity.
  - exists "Fireball", fireball. split; [reflexivity|].
    change (primaryKey fireball) with "fireball". rewrite Hw. discriminate.
Qed.

Lemma normalized_primary_name_witness :
  MapRange (Cards.M twins) twinsVisit
  /\ Cards.M twins !! "FIREBALL" = Some fireballCaps
  /\ Cards.LookupNormalized (Cards.generateNormalized twins twinsVisit) "FIREBALL"
     = Some fireballCaps.
Proof.
  split; [exact twins_range|]. split; [reflexivity|].
  destruct (normalized_primary_name twins twinsVisit "FIREBALL" fireballCaps
              twins_range eq_refl) as (before & after & Hsplit & _ & Hlast).
  apply Hlast.
  assert (Hafter : after = []).
  { cbv delta [twinsVisit splitVisit] in Hsplit.
    destruct before as [|e1 [|e2 before]]; simplify_eq/=; [reflexivity|].
    destruct before; discriminate. }
  subst after. intros e [].
Defined.

Lemma joinedKey_in_keysOf card A B sep :
  Card.Names card = [A; B] -> In sep separators ->
  In (strings.ToLower (A +:+ sep +:+ B)) (keysOf card).
Proof.
  intros Hn Hsep. unfold keysOf. rewrite Hn. apply in_or_app. left.
  apply list_elem_of_In, list_elem_of_fmap. exists sep.
  split; [reflexivity|apply list_elem_of_In, Hsep].
Qed.

(** C7, as amended.  For a card of the primary map with component names
    [A; B], the index has the keys "a & b", "a / b" and "a // b" (the
    names joined by each separator, case-folded).  Each holds the last
    visited card that is entered under that key, a card of the primary
    map; it holds the card itself when no card visited after it is entered
    under the same key. *)
Theorem normalized_joined_names (c : Cards) (visit : list (string * Card))
    (k : string) (card : Card) (A B sep : string) :
  MapRange (Cards.M c) visit ->
  Cards.M c !! k = Some card ->
  Card.Names card = [A; B] ->
  In sep [" & "; " / "; " // "] ->
  exists before after,
    visit = before ++ (k, card) :: after
    /\ (exists winner,
          Cards.normalized (Cards.generateNormalized c visit)
            !! strings.ToLower (A +:+ sep +:+ B) = Some winner
          /\ lastProducer (strings.ToLower (A +:+ sep +:+ B)) visit = Some winner
          /\ In (strings.ToLower (A +:+ sep +:+ B)) (keysOf winner)
          /\ exists k', Cards.M c !! k' = Some winner)
    /\ ((forall e, In e after -> ~ In (strings.ToLower (A +:+ sep +:+ B)) (keysOf e.2)) ->
        Cards.normalized (Cards.generateNormalized c visit)
          !! strings.ToLower (A +:+ sep +:+ B) = Some card).
Proof.
  intros Hrange Hk Hn Hsep.
  exact (indexed_key c visit k card _ Hrange Hk (joinedKey_in_keysOf card A B sep Hn Hsep)).
Qed.

(** The claim as first stated fails for the halves of a split card: both
    carry the names [Fire; Ice], and the joined keys hold the half visited
    last. *)
Lemma joined_names_collision :
  MapRange (Cards.M split) splitVisit
  /\ Cards.M split !! "Fire" = Some fire
  /\ Card.Names fire = ["Fire"; "Ice"]
  /\ Cards.normalized (Cards.generateNormalized split splitVisit) !! "fire & ice" = Some ice
  /\ Cards.normalized (Cards.generateNormalized split splitVisit) !! "fire / ice" = Some ice
  /\ Cards.normalized (Cards.generateNormalized split splitVisit) !! "fire // ice" = Some ice
  /\ ice <> fire.
Proof.
  split; [exact split_range|]. repeat split; try (vm_compute; reflexivity).
  discriminate.
Qed.

Lemma normalized_joined_names_witness :
  MapRange (Cards.M split) splitVisit
  /\ Cards.M split !! "Ice" = Some ice
  /\ Card.Names ice = ["Fire"; "Ice"]
  /\ Cards.normalized (Cards.generateNormalized split splitVisit) !! "fire // ice"
     = Some ice.
Proof.
  split; [exact split_range|]. split; [reflexivity|]. split; [reflexivity|].
  destruct (normalized_joined_names split splitVisit "Ice" ice "Fire" "Ice" " // "
              split_range eq_refl eq_refl)
    as (before & after & Hsplit & _ & Hlast).
  { right. right. left. reflexivity. }
  apply Hlast.
  assert (Hafter : after = []).
  { cbv delta [twinsVisit splitVisit] in Hsplit.
    destruct before as [|e1 [|e2 before]]; simplify_eq/=; [reflexivity|].
    destruct before; discriminate. }
  subst after. intros e [].
Defined.

(** ** Lookup and the ligature *)

Lemma string_app_cons (c : ascii) (a b : string) :
  String c a +:+ b = String c (a +:+ b).
Proof. reflexivity. Qed.

Lemma string_app_nil_r (a : string) : a +:+ "" = a.
Proof.
  induction a as [|x a IH]; [reflexivity|].
  rewrite string_app_cons, IH. reflexivity.
Qed.


Lemma isASCII_app p q : isASCII (p +:+ q) = isASCII p && isASCII q.
Proof.
  induction p as [|c p IH]; [reflexivity|].
  rewrite string_app_cons. cbn [isASCII].
  rewrite IH, andb_assoc. reflexivity.
Qed.

(** A pattern that starts with a byte outside ASCII does not occur in
    ASCII text: the replacement passes over it. *)
Lemma replaceFrom_ascii o olds new p t :
  (128 <=? strings.code o)%N = true ->
  isASCII p = true ->
  strings.replaceFrom (String o olds) new 0 (p +:+ t)
  = p +:+ strings.replaceFrom (String o olds) new 0 t.
Proof.
  intros Ho. induction p as [|c p IH]; intros Hp; [reflexivity|].
  cbn [isASCII] in Hp. apply andb_prop in Hp as [Hc Hp].
  rewrite !string_app_cons. cbn [strings.replaceFrom String.prefix].
  destruct (ascii_dec o c) as [->|Hne].
  - apply N.leb_le in Ho. apply N.ltb_lt in Hc. lia.
  - rewrite IH by exact Hp. reflexivity.
Qed.

Lemma Replace_ascii o olds new p :
  (128 <=? strings.code o)%N = true ->
  isASCII p = true ->
  strings.Replace p (String o olds) new = p.
Proof.
  intros Ho Hp. unfold strings.Replace.
  rewrite <- (string_app_nil_r p) at 1.
  rewrite (replaceFrom_ascii _ _ _ _ _ Ho Hp). cbn. apply string_app_nil_r.
Qed.

Lemma ToLower_ascii_app p t :
  isASCII p = true ->
  strings.ToLower (p +:+ t) = strings.ToLower p +:+ strings.ToLower t.
Proof.
  induction p as [|c p IH]; intros Hp; [reflexivity|].
  cbn [isASCII] in Hp. apply andb_prop in Hp as [Hc Hp].
  rewrite !string_app_cons. cbn [strings.ToLower].
  assert (Hn : (strings.code c =? 195)%N = false).
  { apply N.eqb_neq. apply N.ltb_lt in Hc. lia. }
  rewrite Hn, IH by exact Hp. reflexivity.
Qed.

Lemma replaceFrom_ligature q :
  strings.replaceFrom "Æ" "Ae" 0 ("Æ" +:+ q) = "Ae" +:+ strings.Replace q "Æ" "Ae".
Proof. destruct q; reflexivity. Qed.

Lemma normalize_upper_ligature p q :
  isASCII p = true -> isASCII q = true ->
  normalizeCardName (p +:+ "Æ" +:+ q) = p +:+ "Ae" +:+ q.
Proof.
  intros Hp Hq. unfold normalizeCardName.
  assert (H1 : strings.Replace (p +:+ "Æ" +:+ q) "Æ" "Ae" = p +:+ "Ae" +:+ q).
  { unfold strings.Replace.
    rewrite replaceFrom_ascii by (reflexivity || exact Hp).
    rewrite replaceFrom_ligature.
    rewrite Replace_ascii by (reflexivity || exact Hq). reflexivity. }
  rewrite H1. apply Replace_ascii; [reflexivity|].
  rewrite !isASCII_app, Hp, Hq. reflexivity.
Qed.


(** *** The two substitutions, glyph by glyph *)




















(** ** The store *)

Section StoreProperties.
Context `{Runtime}.

Import Store.

Lemma Inv_NewStore : Inv NewStore.
Proof.
  split; cbn; try tauto; try lia; try set_solver.
Qed.

Lemma loopHead_settled s : settled (loopHead s).
Proof. unfold loopHead, settled. destruct (_ =? _)%Z; tauto. Qed.

Lemma loopHead_not_published s :
  match loopHead s with
  | Published _ | Notified => False
  | _ => True
  end.
Proof. unfold loopHead. destruct (_ =? _)%Z; exact I. Qed.

Lemma isClosed_fired ch h : isClosed ch h = true <-> ch ∈ fired h.
Proof. unfold isClosed. apply bool_decide_eq_true. Qed.

Lemma isClosed_not_fired ch h : isClosed ch h = false <-> ch ∉ fired h.
Proof. unfold isClosed. apply bool_decide_eq_false. Qed.

Ltac inv_cases :=
  repeat match goal with
  | |- context [loopHead ?s] =>
      unfold loopHead; destruct (updateFrequency s =? 0)%Z
  | H : context [isClosed ?c ?h] |- _ =>
      let E := fresh "E" in
      destruct (isClosed c h) eqn:E;
      [apply isClosed_fired in E|apply isClosed_not_fired in E]
  | |- context [isClosed ?c ?h] =>
      let E := fresh "E" in
      destruct (isClosed c h) eqn:E;
      [apply isClosed_fired in E|apply isClosed_not_fired in E]
  end.

Ltac fired_facts :=
  repeat match goal with
  | H : _ ∈ {[_]} ∪ _ |- _ => apply elem_of_union in H as [H|H]
  | H : _ ∈ {[_]} |- _ => apply elem_of_singleton in H
  | |- _ ∈ {[_]} ∪ _ => apply elem_of_union
  | |- _ ∉ {[_]} ∪ _ => apply not_elem_of_union; split
  | |- _ ∉ {[_]} => apply not_elem_of_singleton
  end.

Lemma Inv_watcher s pc pc' :
  Inv {| st := s; watcher := pc |} ->
  match pc' with
  | Published n => n = notifyCh s /\ (n ∉ fired (chans s)) /\ 3 <= n
  | _ => notifyCh s = 2 \/ notifyCh s ∈ fired (chans s)
  end ->
  match pc' with
  | Published _ | Notified => cards s <> None
  | _ => True
  end ->
  (settled pc' -> cards s <> None -> 0 ∈ fired (chans s)) ->
  Inv {| st := s; watcher := pc' |}.
Proof.
  intros [Hr Hc Hn Hnl Hfl Hf Hcards Hnot Hpub Hrc Hset] H1 H2 H3.
  split; assumption.
Qed.

Lemma Inv_stale s :
  Inv {| st := s; watcher := Fetching |} ->
  Inv {| st := s; watcher := loopHead s |}.
Proof.
  intros HI. pose proof HI as [Hr Hc Hn Hnl Hfl Hf Hcards Hnot Hpub Hrc Hset].
  cbn [st watcher] in *.
  apply (Inv_watcher _ _ _ HI).
  - unfold loopHead. destruct (_ =? _)%Z; exact Hnot.
  - unfold loopHead. destruct (_ =? _)%Z; exact I.
  - intros _. apply Hset. left. reflexivity.
Qed.

Lemma Inv_publish s c e s' notify :
  Inv {| st := s; watcher := Fetching |} ->
  publish c e s = (s', notify) ->
  Inv {| st := s'; watcher := Published notify |}.
Proof.
  intros [Hr Hc Hn Hnl Hfl Hf Hcards Hnot Hpub Hrc Hset] Hp.
  cbn [st watcher] in *. unfold publish, make in Hp. injection Hp as <- <-.
  split; cbn [st watcher ready closed cards notifyCh chans next fired].
  - exact Hr.
  - exact Hc.
  - lia.
  - lia.
  - intros ch Hch. apply Hfl in Hch. lia.
  - exact Hf.
  - split; [discriminate|lia].
  - split; [reflexivity|]. split; [|lia].
    intros Hin. apply Hfl in Hin. lia.
  - discriminate.
  - discriminate.
  - unfold settled. intros [|[|]]; discriminate.
Qed.

Lemma Inv_notify s notify :
  Inv {| st := s; watcher := Published notify |} ->
  Inv {| st := notifyWaiters notify s; watcher := Notified |}.
Proof.
  intros [Hr Hc Hn Hnl Hfl Hf Hcards Hnot Hpub Hrc Hset].
  cbn [st watcher] in *. destruct Hnot as (-> & Hnf & H3).
  unfold notifyWaiters, withChans, close.
  split; cbn [st watcher ready closed cards notifyCh chans next fired];
    try assumption.
  - intros ch Hch. fired_facts; [lia|apply Hfl, Hch].
  - fired_facts; [lia|exact Hf].
  - right. fired_facts. left. apply elem_of_singleton. reflexivity.
  - intros _. exact Hpub.
  - unfold settled. intros [|[|]]; discriminate.
Qed.

Lemma Inv_fireReady s :
  Inv {| st := s; watcher := Notified |} ->
  Inv {| st := fireReady s; watcher := loopHead (fireReady s) |}.
Proof.
  intros [Hr Hc Hn Hnl Hfl Hf Hcards Hnot Hpub Hrc Hset].
  cbn [st watcher] in *.
  assert (Hlh : loopHead (fireReady s) = loopHead s).
  { unfold fireReady, loopHead. destruct (isClosed _ _); reflexivity. }
  rewrite Hlh. unfold fireReady.
  destruct (isClosed (ready s) (chans s)) eqn:E.
  - apply isClosed_fired in E. rewrite Hr in E.
    split; cbn [st watcher]; try assumption.
    + unfold loopHead. destruct (_ =? _)%Z; exact Hnot.
    + unfold loopHead. destruct (_ =? _)%Z; exact I.
    + intros _ _. exact E.
  - unfold withChans, close.
    split; cbn [st watcher ready closed cards notifyCh chans next fired];
      try assumption.
    + intros ch Hch. fired_facts; [lia|apply Hfl, Hch].
    + fired_facts; [rewrite Hr; lia|exact Hf].
    + assert (Hn' : notifyCh s = 2 \/ notifyCh s ∈ {[ready s]} ∪ fired (chans s)).
      { destruct Hnot as [Hnot|Hnot]; [left; exact Hnot|].
        right. apply elem_of_union. right. exact Hnot. }
      unfold loopHead. destruct (_ =? _)%Z; exact Hn'.
    + unfold loopHead. destruct (_ =? _)%Z; exact I.
    + intros _. exact Hpub.
    + intros _ _. apply elem_of_union. left. apply elem_of_singleton.
      symmetry. exact Hr.
Qed.

Lemma Inv_Close s pc :
  Inv {| st := s; watcher := pc |} ->
  Inv {| st := (Close s).1; watcher := pc |}.
Proof.
  intros HI. pose proof HI as [Hr Hc Hn Hnl Hfl Hf Hcards Hnot Hpub Hrc Hset].
  cbn [st watcher] in *. unfold Close.
  destruct (isClosed (closed s) (chans s)) eqn:E; cbn [fst]; [exact HI|].
  unfold withChans, close.
  split; cbn [st watcher ready closed cards notifyCh chans next fired];
    try assumption.
  - intros ch Hch. fired_facts; [lia|apply Hfl, Hch].
  - fired_facts; [rewrite Hc; lia|exact Hf].
  - destruct pc; try (destruct Hnot as [Hnot|Hnot]; [left; exact Hnot|];
      right; apply elem_of_union; right; exact Hnot).
    destruct Hnot as (Hn1 & Hn2 & Hn3). split; [exact Hn1|]. split; [|exact Hn3].
    fired_facts; [rewrite Hc; lia|exact Hn2].
  - intros Hin. fired_facts; [rewrite Hc in Hin; discriminate|apply Hrc, Hin].
  - intros Hs Hcs. apply elem_of_union. right. apply Hset; assumption.
Qed.

Lemma Inv_WaitForUpdate s pc :
  Inv {| st := s; watcher := pc |} ->
  Inv {| st := (WaitForUpdate s).1; watcher := pc |}.
Proof.
  intros [Hr Hc Hn Hnl Hfl Hf Hcards Hnot Hpub Hrc Hset].
  cbn [st watcher] in *. unfold WaitForUpdate, make, withChans. cbn [fst].
  split; cbn [st watcher ready closed cards notifyCh chans next fired];
    try assumption; try lia.
  intros ch Hch. apply Hfl in Hch. lia.
Qed.

Lemma step_Inv a w w' ev : Inv w -> step a w = Some (w', ev) -> Inv w'.
Proof.
  intros HI Hstep. destruct w as [s pc]. unfold step in Hstep. cbn [st watcher] in Hstep.
  destruct a.
  - destruct pc; try discriminate.
    destruct (fetch rt (etag s)) as [log|c e].
    + injection Hstep as <- _. apply Inv_stale, HI.
    + destruct (publish c e s) as [s' notify] eqn:Hp.
      injection Hstep as <- _. apply (Inv_publish _ _ _ _ _ HI Hp).
  - destruct pc; try discriminate. injection Hstep as <- _. apply Inv_notify, HI.
  - destruct pc; try discriminate. injection Hstep as <- _. apply Inv_fireReady, HI.
  - destruct pc; try discriminate.
    destruct (isClosed _ _); [discriminate|]. injection Hstep as <- _.
    pose proof HI as [Hr Hc Hn Hnl Hfl Hf Hcards Hnot Hpub Hrc Hset].
    apply (Inv_watcher _ _ _ HI); cbn [st watcher] in *.
    + exact Hnot.
    + exact I.
    + intros _. apply Hset. right. left. reflexivity.
  - destruct pc; try discriminate.
    destruct (isClosed _ _); [|discriminate]. injection Hstep as <- _.
    pose proof HI as [Hr Hc Hn Hnl Hfl Hf Hcards Hnot Hpub Hrc Hset].
    apply (Inv_watcher _ _ _ HI); cbn [st watcher] in *.
    + exact Hnot.
    + exact I.
    + intros _. apply Hset. right. left. reflexivity.
  - pose proof (Inv_Close s pc HI) as HC.
    destruct (Close s) as [s' err]. injection Hstep as <- _. exact HC.
  - pose proof (Inv_WaitForUpdate s pc HI) as HW.
    destruct (WaitForUpdate s) as [s' h]. injection Hstep as <- _. exact HW.
Qed.

Lemma run_Inv acts : forall w w' evs,
  Inv w -> run acts w = Some (w', evs) -> Inv w'.
Proof.
  induction acts as [|a acts IH]; intros w w' evs HI Hrun; cbn [run] in Hrun.
  - injection Hrun as <- _. exact HI.
  - destruct (step a w) as [[w1 ev]|] eqn:Hs; [|discriminate].
    destruct (run acts w1) as [[w2 evs']|] eqn:Hr; [|discriminate].
    injection Hrun as <- _. apply (IH _ _ _ (step_Inv _ _ _ _ HI Hs) Hr).
Qed.

Lemma run_cons a acts w w' evs :
  run (a :: acts) w = Some (w', evs) ->
  exists w1 ev evs', step a w = Some (w1, ev) /\ run acts w1 = Some (w', evs')
                     /\ evs = ev :: evs'.
Proof.
  cbn [run]. destruct (step a w) as [[w1 ev]|]; [|discriminate].
  destruct (run acts w1) as [[w2 evs']|] eqn:Hr; [|discriminate].
  intros [= <- <-]. exists w1, ev, evs'. rewrite Hr. repeat split.
Qed.

Lemma run_app acts1 : forall acts2 w w' evs,
  run (acts1 ++ acts2) w = Some (w', evs) ->
  exists w1 evs1 evs2, run acts1 w = Some (w1, evs1)
                       /\ run acts2 w1 = Some (w', evs2) /\ evs = evs1 ++ evs2.
Proof.
  induction acts1 as [|a acts1 IH]; intros acts2 w w' evs Hrun.
  - exists w, [], evs. repeat split. exact Hrun.
  - rewrite <- app_comm_cons in Hrun.
    apply run_cons in Hrun as (w1 & ev & evs' & Hs & Hr & ->).
    apply IH in Hr as (w2 & evs1 & evs2 & Hr1 & Hr2 & ->).
    exists w2, (ev :: evs1), evs2. cbn [run]. rewrite Hs, Hr1. repeat split.
    exact Hr2.
Qed.

(** *** Close *)

(** Only [Close] closes [s.closed]. *)
Lemma step_closed a w w' ev :
  Inv w -> step a w = Some (w', ev) ->
  (closed (st w') = closed (st w))
  /\ (closed (st w) ∈ fired (chans (st w')) <->
      closed (st w) ∈ fired (chans (st w)) \/ a = CallClose).
Proof.
  intros [Hr Hc Hn Hnl Hfl Hf Hcards Hnot Hpub Hrc Hset] Hstep.
  destruct w as [s pc]. unfold step in Hstep. cbn [st watcher] in *.
  destruct a.
  - destruct pc; try discriminate.
    destruct (fetch rt (etag s)) as [log|c e].
    + injection Hstep as <- _. cbn. split; [reflexivity|]. split; [tauto|].
      intros [|]; [assumption|discriminate].
    + unfold publish, make in Hstep. injection Hstep as <- _. cbn.
      split; [reflexivity|]. split; [tauto|]. intros [|]; [assumption|discriminate].
  - destruct pc; try discriminate. injection Hstep as <- _.
    unfold notifyWaiters, withChans, close. cbn. split; [reflexivity|].
    destruct Hnot as (-> & Hnf & H3). rewrite elem_of_union, elem_of_singleton.
    split; [intros [Heq|Hin]; [lia|tauto]|]. intros [|]; [tauto|discriminate].
  - destruct pc; try discriminate. injection Hstep as <- _.
    unfold fireReady. destruct (isClosed _ _).
    + split; [reflexivity|]. split; [tauto|]. intros [|]; [assumption|discriminate].
    + unfold withChans, close. cbn. split; [reflexivity|].
      rewrite elem_of_union, elem_of_singleton.
      split; [intros [Heq|Hin]; [lia|tauto]|]. intros [|]; [tauto|discriminate].
  - destruct pc; try discriminate. destruct (isClosed _ _); [discriminate|].
    injection Hstep as <- _. cbn. split; [reflexivity|]. split; [tauto|].
    intros [|]; [assumption|discriminate].
  - destruct pc; try discriminate. destruct (isClosed _ _); [|discriminate].
    injection Hstep as <- _. cbn. split; [reflexivity|]. split; [tauto|].
    intros [|]; [assumption|discriminate].
  - unfold Close in Hstep. destruct (isClosed _ _) eqn:E.
    + injection Hstep as <- _. cbn. apply isClosed_fired in E. tauto.
    + injection Hstep as <- _. unfold withChans, close. cbn.
      split; [reflexivity|]. rewrite elem_of_union, elem_of_singleton. tauto.
  - unfold WaitForUpdate, make, withChans in Hstep. injection Hstep as <- _. cbn.
    split; [reflexivity|]. split; [tauto|]. intros [|]; [assumption|discriminate].
Qed.

Lemma run_closed acts : forall w w' evs,
  Inv w -> run acts w = Some (w', evs) ->
  closed (st w') = closed (st w)
  /\ (closed (st w) ∈ fired (chans (st w')) <->
      closed (st w) ∈ fired (chans (st w)) \/ In CallClose acts).
Proof.
  induction acts as [|a acts IH]; intros w w' evs HI Hrun.
  - injection Hrun as <- _. cbn. tauto.
  - apply run_cons in Hrun as (w1 & ev & evs' & Hs & Hr & ->).
    destruct (step_closed _ _ _ _ HI Hs) as [Hc1 Hf1].
    destruct (IH _ _ _ (step_Inv _ _ _ _ HI Hs) Hr) as [Hc2 Hf2].
    rewrite Hc1 in Hc2, Hf2. split; [exact Hc2|].
    rewrite Hf2, Hf1. cbn [In]. intuition congruence.
Qed.

(** Once [s.closed] is closed, the timer of [watch] never wins again. *)
Lemma run_closed_no_Timer acts : forall w w' evs,
  Inv w -> closed (st w) ∈ fired (chans (st w)) ->
  run acts w = Some (w', evs) -> ~ In Timer acts.
Proof.
  induction acts as [|a acts IH]; intros w w' evs HI Hcl Hrun; [intros []|].
  apply run_cons in Hrun as (w1 & ev & evs' & Hs & Hr & ->).
  destruct (step_closed _ _ _ _ HI Hs) as [Hc1 Hf1].
  intros [->|Hin].
  - unfold step in Hs. destruct (watcher w); try discriminate.
    apply isClosed_fired in Hcl. rewrite Hcl in Hs. discriminate.
  - apply (IH _ _ _ (step_Inv _ _ _ _ HI Hs)) in Hr; [contradiction|].
    rewrite Hc1. apply Hf1. left. exact Hcl.
Qed.

Lemma closeResults_cons ev evs :
  closeResults (ev :: evs) = closeResults [ev] ++ closeResults evs.
Proof. destruct ev; reflexivity. Qed.

Lemma step_closeResults a w w' ev :
  step a w = Some (w', ev) ->
  closeResults [ev]
  = if isCallClose a
    then [if isClosed (closed (st w)) (chans (st w)) then Some "already closed" else None]
    else [].
Proof.
  intros Hstep. destruct w as [s pc]. unfold step in Hstep. cbn [st watcher] in *.
  destruct a; try (destruct pc; try discriminate).
  1: destruct (fetch rt (etag s)) as [log|c e];
       [|destruct (publish c e s)]; injection Hstep as _ <-; reflexivity.
  1-2: injection Hstep as _ <-; reflexivity.
  1: destruct (isClosed _ _); [discriminate|injection Hstep as _ <-; reflexivity].
  1: destruct (isClosed _ _); [injection Hstep as _ <-; reflexivity|discriminate].
  all: unfold Close, WaitForUpdate, make in Hstep; try destruct (isClosed _ _);
    injection Hstep as _ <-; reflexivity.
Qed.

Lemma run_closeResults acts : forall w w' evs,
  Inv w -> run acts w = Some (w', evs) ->
  exists n,
    closeResults evs
    = if isClosed (closed (st w)) (chans (st w))
      then replicate n (Some "already closed")
      else match n with
           | O => []
           | S m => None :: replicate m (Some "already closed")
           end.
Proof.
  induction acts as [|a acts IH]; intros w w' evs HI Hrun.
  - injection Hrun as _ <-. exists 0. destruct (isClosed _ _); reflexivity.
  - apply run_cons in Hrun as (w1 & ev & evs' & Hs & Hr & ->).
    destruct (IH _ _ _ (step_Inv _ _ _ _ HI Hs) Hr) as [n Hn].
    destruct (step_closed _ _ _ _ HI Hs) as [Hc1 Hf1].
    rewrite closeResults_cons.
    rewrite (step_closeResults _ _ _ _ Hs), Hn, Hc1.
    destruct a; cbn [isCallClose];
      try (assert (Hsame : isClosed (closed (st w)) (chans (st w1))
                           = isClosed (closed (st w)) (chans (st w)))
             by (apply bool_decide_ext; rewrite Hf1; intuition discriminate);
           rewrite Hsame; exists n; reflexivity).
    assert (Hnow : isClosed (closed (st w)) (chans (st w1)) = true).
      { apply isClosed_fired, Hf1. right. reflexivity. }
    rewrite Hnow. destruct (isClosed (closed (st w)) (chans (st w)));
      exists (S n); reflexivity.
Qed.

(** C5.  In every run of a new store: the calls of [Close] returned nil the
    first time and the error "already closed" every time after; no timer of
    [watch] fires after a call of [Close], so no scheduled refresh starts;
    and a further call returns the error exactly when [Close] was called
    before. *)
Theorem Close_once (acts : list Action) (w : World) (evs : list Event) :
  run acts NewStore = Some (w, evs) ->
  (exists n, closeResults evs = []
             \/ closeResults evs = None :: replicate n (Some "already closed"))
  /\ (forall before after, acts = before ++ CallClose :: after -> ~ In Timer after)
  /\ (In CallClose acts -> Close (st w) = (st w, Some "already closed"))
  /\ (~ In CallClose acts ->
      (Close (st w)).2 = None
      /\ Close (Close (st w)).1 = ((Close (st w)).1, Some "already closed")).
Proof.
  intros Hrun.
  pose proof (run_Inv _ _ _ _ Inv_NewStore Hrun) as HI.
  destruct (run_closed _ _ _ _ Inv_NewStore Hrun) as [Hc Hf].
  assert (Hopen : closed (st NewStore) ∉ fired (chans (st NewStore)))
    by (cbn; apply not_elem_of_empty).
  split; [|split; [|split]].
  - destruct (run_closeResults _ _ _ _ Inv_NewStore Hrun) as [n Hn].
    apply isClosed_not_fired in Hopen. rewrite Hopen in Hn.
    destruct n as [|m]; [exists 0; left; exact Hn|exists m; right; exact Hn].
  - intros before after ->.
    apply run_app in Hrun as (w1 & evs1 & evs2 & Hr1 & Hr2 & _).
    apply run_cons in Hr2 as (w2 & ev & evs' & Hs & Hr & _).
    pose proof (run_Inv _ _ _ _ Inv_NewStore Hr1) as HI1.
    destruct (step_closed _ _ _ _ HI1 Hs) as [Hc1 Hf1].
    apply (run_closed_no_Timer _ _ _ _ (step_Inv _ _ _ _ HI1 Hs)) in Hr; [exact Hr|].
    rewrite Hc1. apply Hf1. right. reflexivity.
  - intros Hin. unfold Close.
    assert (Hcl : isClosed (closed (st w)) (chans (st w)) = true).
    { apply isClosed_fired. rewrite Hc. apply Hf. right. exact Hin. }
    rewrite Hcl. reflexivity.
  - intros Hnot. unfold Close.
    assert (Hcl : isClosed (closed (st w)) (chans (st w)) = false).
    { apply isClosed_not_fired. rewrite Hc. rewrite Hf. tauto. }
    rewrite Hcl. cbn [fst snd]. split; [reflexivity|].
    unfold withChans, close. cbn [closed chans].
    assert (Hnow : isClosed (closed (st w))
                     {| next := next (chans (st w));
                        fired := {[closed (st w)]} ∪ fired (chans (st w)) |} = true).
    { apply isClosed_fired. cbn. apply elem_of_union. left.
      apply elem_of_singleton. reflexivity. }
    rewrite Hnow. reflexivity.
Qed.

(** *** Cards and the ready signal *)

Lemma fetch_log rt e log : fetch rt e = Stale log -> ~ In UpdateSuccessful log.
Proof.
  unfold fetch. destruct (rt e) as [err|resp].
  - intros [= <-] [Hin|[]]. discriminate.
  - destruct (bool_decide _); [intros [= <-] []|].
    destruct (negb _); [intros [= <-] [Hin|[]]; discriminate|].
    destruct (ReadErr resp); [intros [= <-] [Hin|[]]; discriminate|].
    destruct (Unmarshal _); [intros [= <-] [Hin|[]]; discriminate|discriminate].
Qed.

(** [s.ready] is closed by the step that logs the success, and by no
    other. *)
Lemma step_ready a w w' ev :
  Inv w -> step a w = Some (w', ev) ->
  (0 ∈ fired (chans (st w')) <-> 0 ∈ fired (chans (st w)) \/ succeeded ev).
Proof.
  intros [Hr Hc Hn Hnl Hfl Hf Hcards Hnot Hpub Hrc Hset] Hstep.
  destruct w as [s pc]. unfold step in Hstep. cbn [st watcher] in *.
  assert (Hsil : ~ succeeded Silent) by (intros (log & Hl & _); discriminate).
  destruct a as [rt| | | | | |];
    [destruct pc; try discriminate ..| |].
  - destruct (fetch rt (etag s)) as [log|c e] eqn:Hfetch.
    + injection Hstep as <- <-. cbn. split; [tauto|]. intros [Hin|(l & [= <-] & Hl)];
        [exact Hin|]. exfalso. apply (fetch_log _ _ _ Hfetch Hl).
    + unfold publish, make in Hstep. injection Hstep as <- <-. cbn. tauto.
  - injection Hstep as <- <-. unfold notifyWaiters, withChans, close. cbn.
    destruct Hnot as (-> & Hnf & H3). rewrite elem_of_union, elem_of_singleton.
    split; [intros [Heq|Hin]; [lia|tauto]|tauto].
  - injection Hstep as <- <-. unfold fireReady.
    destruct (isClosed _ _) eqn:E.
    + apply isClosed_fired in E. rewrite Hr in E. tauto.
    + unfold withChans, close. cbn. rewrite Hr, elem_of_union, elem_of_singleton.
      split; [|tauto]. intros _. right. exists [UpdateSuccessful].
      split; [reflexivity|left; reflexivity].
  - destruct (isClosed _ _); [discriminate|]. injection Hstep as <- <-. cbn. tauto.
  - destruct (isClosed _ _); [|discriminate]. injection Hstep as <- <-. cbn. tauto.
  - unfold Close in Hstep. destruct (isClosed _ _) eqn:E; injection Hstep as <- <-;
      unfold withChans, close; cbn.
    + split; [tauto|]. intros [Hin|(l & Hl & _)]; [exact Hin|discriminate].
    + rewrite Hc, elem_of_union, elem_of_singleton.
      split; [intros [Heq|Hin]; [lia|tauto]|].
      intros [Hin|(l & Hl & _)]; [tauto|discriminate].
  - unfold WaitForUpdate, make, withChans in Hstep.
    injection Hstep as <- <-. cbn.
    split; [tauto|]. intros [Hin|(l & Hl & _)]; [exact Hin|discriminate].
Qed.

Lemma run_ready acts : forall w w' evs,
  Inv w -> run acts w = Some (w', evs) ->
  (0 ∈ fired (chans (st w')) <->
   0 ∈ fired (chans (st w)) \/ Exists succeeded evs).
Proof.
  induction acts as [|a acts IH]; intros w w' evs HI Hrun.
  - injection Hrun as <- <-. rewrite Exists_nil. tauto.
  - apply run_cons in Hrun as (w1 & ev & evs' & Hs & Hr & ->).
    rewrite (IH _ _ _ (step_Inv _ _ _ _ HI Hs) Hr), (step_ready _ _ _ _ HI Hs).
    rewrite Exists_cons. tauto.
Qed.

(** C6.  In every run of a new store: [Cards] blocks exactly as long as no
    refresh has succeeded; once one has, [Cards] returns the store's
    current catalog pointer, which is not nil; and whenever the ready
    signal has fired the pointer is not nil. *)
Theorem Cards_after_first_success (acts : list Action) (w : World)
    (evs : list Event) :
  run acts NewStore = Some (w, evs) ->
  (Store.Cards (st w) = None <-> ~ Exists succeeded evs)
  /\ (Exists succeeded evs ->
      exists c, cards (st w) = Some c /\ Store.Cards (st w) = Some (Some c))
  /\ (isClosed (ready (st w)) (chans (st w)) = true -> cards (st w) <> None).
Proof.
  intros Hrun.
  pose proof (run_Inv _ _ _ _ Inv_NewStore Hrun) as HI.
  pose proof (run_ready _ _ _ _ Inv_NewStore Hrun) as Hready.
  assert (Hnot0 : 0 ∉ fired (chans (st NewStore))) by (cbn; apply not_elem_of_empty).
  destruct HI as [Hr Hc Hn Hnl Hfl Hf Hcards Hnot Hpub Hrc Hset].
  unfold Store.Cards. rewrite Hr. split; [|split].
  - destruct (isClosed 0 (chans (st w))) eqn:E.
    + apply isClosed_fired in E. split; [discriminate|]. intros Hno. exfalso.
      apply Hready in E as [E|E]; [exact (Hnot0 E)|exact (Hno E)].
    + apply isClosed_not_fired in E. split; [|reflexivity]. intros _ Hsome.
      apply E, Hready. right. exact Hsome.
  - intros Hsome.
    assert (E : 0 ∈ fired (chans (st w))) by (apply Hready; right; exact Hsome).
    pose proof (Hrc E) as Hcs. apply isClosed_fired in E. rewrite E.
    destruct (cards (st w)) as [c|]; [|contradiction]. exists c. split; reflexivity.
  - intros E. apply isClosed_fired in E. apply Hrc, E.
Qed.

(** *** maybeUpdate *)

(** [maybeUpdate] is the three steps of the goroutine, taken in a row. *)
Lemma maybeUpdate_steps rt s :
  match fetch rt (etag s) with
  | Stale log =>
      run [Fetch rt] {| st := s; watcher := Fetching |}
      = Some ({| st := (maybeUpdate rt s).1; watcher := loopHead s |},
              [Logged (maybeUpdate rt s).2])
  | Fresh _ _ =>
      run [Fetch rt; Notify; Ready] {| st := s; watcher := Fetching |}
      = Some ({| st := (maybeUpdate rt s).1;
                 watcher := loopHead (maybeUpdate rt s).1 |},
              [Silent; Silent; Logged (maybeUpdate rt s).2])
  end.
Proof.
  unfold maybeUpdate. destruct (fetch rt (etag s)) as [log|c e] eqn:Hf.
  - cbn [run step st watcher]. rewrite Hf. reflexivity.
  - cbn [run step st watcher]. rewrite Hf.
    destruct (publish c e s) as [s' notify]. reflexivity.
Qed.

Lemma fetch_failed rt e :
  failedCycle (rt e) -> exists log, fetch rt e = Stale log.
Proof.
  unfold failedCycle, fetch. destruct (rt e) as [err|resp]; [eauto|].
  unfold StatusNotModified, StatusOK.
  case_bool_decide as H304; [eauto|].
  case_bool_decide as H200; cbn [negb]; [|eauto].
  intros [Hs|[Hs|[[rerr Hr]|[err He]]]].
  - contradiction.
  - lia.
  - rewrite Hr. eauto.
  - destruct (ReadErr resp); [eauto|]. rewrite He. eauto.
Qed.

(** C2.  A refresh cycle that fails (transport failure, 304, a status
    outside 2xx, a body read failure, a decode failure) leaves the store as
    it was: [maybeUpdate] returns the very same state, catalog, validator
    token and update signal included, with at most a log line; [Cards] and
    [WaitForUpdate] give afterwards what they gave before; and the
    goroutine's step is the same no-op. *)
Theorem maybeUpdate_failure_keeps_state (rt : RoundTrip) (s : Store) :
  failedCycle (rt (etag s)) ->
  exists log,
    maybeUpdate rt s = (s, log)
    /\ ~ In UpdateSuccessful log
    /\ cards (maybeUpdate rt s).1 = cards s
    /\ etag (maybeUpdate rt s).1 = etag s
    /\ notifyCh (maybeUpdate rt s).1 = notifyCh s
    /\ chans (maybeUpdate rt s).1 = chans s
    /\ Store.Cards (maybeUpdate rt s).1 = Store.Cards s
    /\ WaitForUpdate (maybeUpdate rt s).1 = WaitForUpdate s
    /\ step (Fetch rt) {| st := s; watcher := Fetching |}
       = Some ({| st := s; watcher := loopHead s |}, Logged log).
Proof.
  intros Hfail. destruct (fetch_failed _ _ Hfail) as [log Hlog].
  exists log. unfold maybeUpdate, step. cbn [st watcher]. rewrite Hlog. cbn [fst].
  repeat split. apply (fetch_log _ _ _ Hlog).
Qed.

(** *** WaitForUpdate *)

(** C1 (the code against the claim).  Take a handle from [WaitForUpdate]
    at any moment of any run of a new store.  Its signal is the channel in
    [s.notifyCh] at that moment.  If no refresh has succeeded yet, that is
    the channel made by [NewStore], which nothing ever closes: whatever
    happens afterwards, successful refreshes included, the handle's
    goroutine stays blocked.  If a refresh has succeeded and the goroutine
    of [watch] is not in the middle of a publication, the signal is closed
    already: the handle delivers at once, without any further refresh, the
    catalog that was current when it was taken. *)
Theorem WaitForUpdate_signal_never_or_already_fired
    (acts : list Action) (w w1 : World) (evs : list Event) (h : Handle) :
  run acts NewStore = Some (w, evs) ->
  step CallWaitForUpdate w = Some (w1, WaitReturned h) ->
  signal h = notifyCh (st w)
  /\ (cards (st w) = None ->
      forall acts' w2 evs', run acts' w1 = Some (w2, evs') ->
        delivers h (st w2) = None)
  /\ (cards (st w) <> None -> settled (watcher w) ->
      delivers h (st w1) = Some (cards (st w))).
Proof.
  intros Hrun Hstep.
  pose proof (run_Inv _ _ _ _ Inv_NewStore Hrun) as HI.
  pose proof (step_Inv _ _ _ _ HI Hstep) as HI1.
  destruct w as [s pc]. unfold step in Hstep. cbn [st watcher] in *.
  assert (Hw1 : w1 = {| st := (WaitForUpdate s).1; watcher := pc |}
                /\ h = (WaitForUpdate s).2).
  { destruct pc; destruct (WaitForUpdate s); injection Hstep as <- <-;
      split; reflexivity. }
  destruct Hw1 as [-> ->]. clear Hstep.
  destruct HI as [Hr Hc Hn Hnl Hfl Hf Hcards Hnot Hpub Hrc Hset].
  cbn [st watcher] in *.
  unfold WaitForUpdate, make, withChans. cbn [fst snd signal].
  split; [reflexivity|]. split.
  - intros Hnone acts' w2 evs' Hrun2.
    pose proof (run_Inv _ _ _ _ HI1 Hrun2) as [_ _ _ _ _ Hf2 _ _ _ _ _].
    unfold delivers. cbn [signal].
    apply Hcards in Hnone. rewrite Hnone.
    apply isClosed_not_fired in Hf2. rewrite Hf2. reflexivity.
  - intros Hsome Hsettled. unfold delivers, Store.Cards.
    cbn [signal ready chans cards].
    assert (Hn2 : notifyCh s <> 2) by (intros E; apply Hsome, Hcards, E).
    assert (Hfired : notifyCh s ∈ fired (chans s)).
    { destruct Hsettled as [-> | [-> | ->]]; destruct Hnot as [E|E];
        solve [contradiction|exact E]. }
    assert (Hready : 0 ∈ fired (chans s)) by (apply Hset; assumption).
    unfold isClosed. cbn [fired]. rewrite Hr.
    rewrite !bool_decide_eq_true_2 by assumption. reflexivity.
Qed.

End StoreProperties.

(** ** Runs of the store on a small feed *)

Section StoreRuns.
#[local] Existing Instance fixtureRuntime.

Import Store.

(** Two runs.  A handle taken after the first refresh delivers at once,
    with no refresh after the call; a handle taken before it is still
    blocked after two successful refreshes, while [Cards] already returns
    the second catalog. *)
Example WaitForUpdate_runs :
  (exists w evs h,
      run (firstRefresh ++ [CallWaitForUpdate]) NewStore = Some (w, evs)
      /\ last evs = Some (WaitReturned h)
      /\ delivers h (st w) = Some (Some shockCatalog))
  /\ (exists w evs h,
        run ([CallWaitForUpdate] ++ firstRefresh
               ++ [Timer; Fetch (server "v2" "{}"); Notify; Ready]) NewStore
        = Some (w, evs)
        /\ head evs = Some (WaitReturned h)
        /\ Store.Cards (st w) = Some (Some (Cards.mk ∅ ∅))
        /\ delivers h (st w) = None).
Proof.
  split.
  - eexists _, _, _. split; [vm_compute; reflexivity|].
    split; [reflexivity|]. vm_compute. reflexivity.
  - eexists _, _, _. split; [vm_compute; reflexivity|].
    split; [reflexivity|]. split; vm_compute; reflexivity.
Qed.

Lemma WaitForUpdate_signal_witness :
  exists w w1 evs h,
    run firstRefresh NewStore = Some (w, evs)
    /\ step CallWaitForUpdate w = Some (w1, WaitReturned h)
    /\ cards (st w) = Some shockCatalog
    /\ watcher w = Sleeping
    /\ delivers h (st w1) = Some (cards (st w)).
Proof.
  eexists _, _, _, _.
  split; [vm_compute; reflexivity|].
  split; [vm_compute; reflexivity|].
  split; [vm_compute; reflexivity|].
  split; [reflexivity|].
  refine (proj2 (proj2 (WaitForUpdate_signal_never_or_already_fired
                          firstRefresh _ _ _ _ _ _)) _ _).
  - vm_compute. reflexivity.
  - vm_compute. reflexivity.
  - discriminate.
  - right. left. reflexivity.
Defined.

Lemma maybeUpdate_failure_witness :
  failedCycle (unavailable (etag init))
  /\ maybeUpdate unavailable init
     = (init, [UpdateFailed 503 "Service Unavailable"]).
Proof.
  assert (Hfail : failedCycle (unavailable (etag init))).
  { right. left. cbn. lia. }
  split; [exact Hfail|].
  destruct (maybeUpdate_failure_keeps_state unavailable init Hfail)
    as (log & Hsame & _).
  rewrite Hsame. f_equal.
  assert (Hlog : (maybeUpdate unavailable init).2
                 = [UpdateFailed 503 "Service Unavailable"]) by reflexivity.
  rewrite Hsame in Hlog. exact Hlog.
Defined.

Lemma Close_once_witness :
  exists w evs,
    run [Fetch unavailable; CallClose; Stop; CallClose] NewStore = Some (w, evs)
    /\ closeResults evs = [None; Some "already closed"]
    /\ Close (st w) = (st w, Some "already closed").
Proof.
  eexists _, _.
  split; [vm_compute; reflexivity|].
  split; [reflexivity|].
  refine (proj1 (proj2 (proj2 (Close_once
            [Fetch unavailable; CallClose; Stop; CallClose] _ _ _))) _).
  - vm_compute. reflexivity.
  - right. left. reflexivity.
Defined.

Lemma Cards_after_first_success_witness :
  exists w evs,
    run firstRefresh NewStore = Some (w, evs)
    /\ Exists succeeded evs
    /\ exists c, cards (st w) = Some c /\ Store.Cards (st w) = Some (Some c).
Proof.
  eexists _, _.
  split; [vm_compute; reflexivity|].
  assert (Hs : Exists succeeded [Silent; Silent; Logged [UpdateSuccessful]]).
  { do 2 apply Exists_cons_tl. apply Exists_cons_hd.
    exists [UpdateSuccessful]. split; [reflexivity|left; reflexivity]. }
  split; [exact Hs|].
  refine (proj1 (proj2 (Cards_after_first_success firstRefresh _ _ _)) Hs).
  vm_compute. reflexivity.
Defined.

End StoreRuns.

(** ** Runs of the query engine *)


Lemma Query_returns_matches_once_witness :
  MapRange (Cards.M twins) twinsVisit
  /\ (exists res,
        Cards.Query twins "c:xyz c!" twinsVisit = (res, None)
        /\ ParseQuery "c:xyz c!" = Query.mk [] [] [] []
        /\ In "Fireball" (map Card.Name res)
        /\ In "FIREBALL" (map Card.Name res))
  /\ In "ball:" (strings.Fields "FIRE ball:")
  /\ malformedField "ball:" = true
  /\ In "ball:" (Query.Name (ParseQuery "FIRE ball:")).
Proof.
  split; [exact twins_range|]. split.
  - destruct (Query_returns_matches_once twins "c:xyz c!" twinsVisit twins_range)
      as (res & Hq & _ & _ & _ & Hiff & Hall & _).
    exists res. split; [exact Hq|].
    pose proof (proj2 Hiff eq_refl) as Hempty. split; [exact Hempty|].
    split.
    + apply (Hall Hempty "Fireball" fireball). reflexivity.
    + apply (Hall Hempty "FIREBALL" fireballCaps). reflexivity.
  - destruct (Query_returns_matches_once twins "FIRE ball:" twinsVisit twins_range)
      as (res & _ & _ & _ & _ & _ & _ & Hbad).
    assert (Hin : In "ball:" (strings.Fields "FIRE ball:"))
      by (right; left; reflexivity).
    split; [exact Hin|]. split; [reflexivity|].
    exact (proj1 (Hbad "ball:" Hin eq_refl)).
Defined.

(** * More of the package *)

(** ** truncate *)

Lemma substring_prefix_length n : forall s,
  String.length (String.substring 0 n s) = Nat.min n (String.length s).
Proof.
  induction n as [|n IH]; intros [|c s]; cbn [String.substring String.length Nat.min];
    try reflexivity.
  rewrite IH. reflexivity.
Qed.

Lemma substring_prefix n : forall s,
  exists rest, s = String.substring 0 n s +:+ rest.
Proof.
  induction n as [|n IH]; intros [|c s]; cbn [String.substring].
  - exists "". reflexivity.
  - exists (String c s). reflexivity.
  - exists "". reflexivity.
  - destruct (IH s) as [rest Hr]. exists rest.
    rewrite string_app_cons, <- Hr. reflexivity.
Qed.

(** X1.  [truncate b n] is the first [min (len b) n] bytes of [b]: a
    prefix of [b], never longer than [n], and [b] itself when [b] has at
    most [n] bytes. *)
Theorem truncate_prefix (b : string) (n : nat) :
  String.length (truncate b n) = Nat.min n (String.length b)
  /\ (exists rest, b = truncate b n +:+ rest)
  /\ (String.length b <= n -> truncate b n = b).
Proof.
  unfold truncate. destruct (n <? String.length b) eqn:E.
  - apply Nat.ltb_lt in E. split; [apply substring_prefix_length|].
    split; [apply substring_prefix|]. lia.
  - apply Nat.ltb_ge in E. split; [lia|]. split; [|reflexivity].
    exists "". rewrite string_app_nil_r. reflexivity.
Qed.

(** ** Cards.Query, exactly *)

Lemma queryLoop_firstByName query (visit : list (string * Card)) :
  forall acc (seen : gmap string bool) (seenl : list string),
  (forall n, default false (seen !! n) = true <-> n ∈ seenl) ->
  (foldl (fun st e => Cards.queryStep query st e.2) (acc, seen) visit).1
  = acc ++ firstByName seenl (matching query (snd <$> visit)).
Proof.
  unfold matching.
  induction visit as [|[k card] visit IH]; intros acc seen seenl Hseen.
  - cbn. rewrite app_nil_r. reflexivity.
  - cbn [foldl fmap list_fmap snd]. rewrite filter_cons.
    unfold Cards.queryStep at 2. cbn [snd].
    destruct (Query.Match query card) eqn:Hm.
    + rewrite decide_True by reflexivity. cbn [firstByName andb].
      destruct (default false (seen !! Card.Name card)) eqn:Hs; cbn [negb].
      * rewrite bool_decide_eq_true_2 by (apply Hseen, Hs). apply IH, Hseen.
      * rewrite bool_decide_eq_false_2
          by (intros Hin; apply Hseen in Hin; congruence).
        rewrite (IH _ _ (Card.Name card :: seenl)).
        { rewrite <- app_assoc. reflexivity. }
        intros n. rewrite elem_of_cons.
        destruct (decide (Card.Name card = n)) as [<-|Hne].
        -- rewrite lookup_insert_eq. cbn. tauto.
        -- rewrite lookup_insert_ne by exact Hne. rewrite Hseen.
           split; [tauto|]. intros [Heq|Hin]; [congruence|exact Hin].
    + rewrite decide_False by discriminate. cbn [andb]. apply IH, Hseen.
Qed.

Lemma firstByName_distinct cards : forall seen,
  NoDup (Card.Name <$> cards) ->
  (forall card, card ∈ cards -> Card.Name card ∉ seen) ->
  firstByName seen cards = cards.
Proof.
  induction cards as [|card cards IH]; intros seen Hnd Hfresh; [reflexivity|].
  cbn [firstByName]. rewrite fmap_cons in Hnd. apply NoDup_cons in Hnd as [Hcard Hnd].
  rewrite bool_decide_eq_false_2 by (apply Hfresh; left).
  f_equal. apply IH; [exact Hnd|].
  intros c Hc. rewrite not_elem_of_cons. split; [|apply Hfresh; right; exact Hc].
  intros Heq. apply Hcard. rewrite <- Heq. apply list_elem_of_fmap_2, Hc.
Qed.

Lemma matching_names_NoDup query cards :
  NoDup (Card.Name <$> cards) -> NoDup (Card.Name <$> matching query cards).
Proof.
  unfold matching. induction cards as [|card cards IH]; [intros; constructor|].
  rewrite fmap_cons, filter_cons. intros Hnd. apply NoDup_cons in Hnd as [Hcard Hnd].
  destruct (decide _); [|apply IH, Hnd].
  rewrite fmap_cons. apply NoDup_cons. split; [|apply IH, Hnd].
  intros Hin. apply Hcard. apply list_elem_of_fmap in Hin as (c & Hn & Hc).
  apply list_elem_of_filter in Hc as [_ Hc]. rewrite Hn. apply list_elem_of_fmap_2, Hc.
Qed.

(** X2.  [Cards.Query] returns, in visiting order, the matching cards that
    are the first of their name among the matching cards visited; its
    error is nil. *)
Theorem Query_first_by_name (c : Cards) (q : string) (visit : list (string * Card)) :
  Cards.Query c q visit
  = (firstByName [] (matching (ParseQuery q) (snd <$> visit)), None).
Proof.
  unfold Cards.Query.
  pose proof (queryLoop_firstByName (ParseQuery q) visit [] ∅ []) as Hloop.
  destruct (foldl _ _ visit) as [res seen]. cbn [fst] in Hloop.
  rewrite Hloop; [reflexivity|].
  intros n. rewrite lookup_empty, elem_of_nil. cbn. split; [discriminate|tauto].
Qed.

Lemma Query_distinct (c : Cards) (q : string) (visit : list (string * Card)) :
  NoDup (Card.Name <$> (snd <$> visit)) ->
  (Cards.Query c q visit).1 = matching (ParseQuery q) (snd <$> visit).
Proof.
  intros Hnd. unfold Cards.Query.
  pose proof (queryLoop_firstByName (ParseQuery q) visit [] ∅ []) as Hloop.
  destruct (foldl _ _ visit) as [res seen]. cbn [fst] in *.
  rewrite Hloop.
  - cbn [app]. apply firstByName_distinct.
    + apply matching_names_NoDup, Hnd.
    + intros card _. apply not_elem_of_nil.
  - intros n. rewrite lookup_empty, elem_of_nil. cbn. split; [discriminate|tauto].
Qed.

(** X3.  When no two cards of the catalog share a name, the result of
    [Cards.Query] does not depend on the order in which the map is
    visited, up to the order of the result: it is the matching cards, and
    two visiting orders give permutations of one another. *)
Theorem Query_order_independent (c : Cards) (q : string)
    (visit1 visit2 : list (string * Card)) :
  MapRange (Cards.M c) visit1 ->
  MapRange (Cards.M c) visit2 ->
  NoDup (Card.Name <$> (snd <$> visit1)) ->
  (Cards.Query c q visit1).1 = matching (ParseQuery q) (snd <$> visit1)
  /\ (Cards.Query c q visit1).1 ≡ₚ (Cards.Query c q visit2).1.
Proof.
  unfold MapRange. intros H1 H2 Hnd.
  assert (Hp : visit1 ≡ₚ visit2) by (rewrite H1, H2; reflexivity).
  assert (Hnd2 : NoDup (Card.Name <$> (snd <$> visit2))) by (rewrite <- Hp; exact Hnd).
  rewrite (Query_distinct c q visit1 Hnd), (Query_distinct c q visit2 Hnd2).
  split; [reflexivity|]. unfold matching. rewrite Hp. reflexivity.
Qed.

Lemma Query_order_independent_witness :
  MapRange (Cards.M twins) twinsVisit
  /\ MapRange (Cards.M twins) (reverse twinsVisit)
  /\ (Cards.Query twins "fire c:r" twinsVisit).1 = [fireball; fireballCaps]
  /\ (Cards.Query twins "fire c:r" twinsVisit).1
     ≡ₚ (Cards.Query twins "fire c:r" (reverse twinsVisit)).1.
Proof.
  assert (Hrev : MapRange (Cards.M twins) (reverse twinsVisit)).
  { unfold MapRange. rewrite reverse_Permutation. exact twins_range. }
  assert (Hnd : NoDup (Card.Name <$> (snd <$> twinsVisit))).
  { apply NoDup_cons. split; [|apply NoDup_singleton].
    intros Hin. apply list_elem_of_singleton in Hin. discriminate. }
  split; [exact twins_range|]. split; [exact Hrev|].
  destruct (Query_order_independent twins "fire c:r" twinsVisit (reverse twinsVisit)
              twins_range Hrev Hnd) as [Hres Hperm].
  split; [|exact Hperm]. reflexivity.
Defined.

(** ** The index, read back *)

Lemma indexCard_size (n : gmap string Card) card :
  size (Cards.indexCard n card) <= size n + 4.
Proof.
  assert (Hins : forall key (c : Card) (m : gmap string Card),
             size (<[key := c]> m) <= S (size m)).
  { intros key c m. rewrite map_size_insert. destruct (m !! key); unfold id; lia. }
  unfold Cards.indexCard. destruct (negb _).
  - pose proof (Hins (strings.ToLower (strings.Join (Card.Names card) " & ")) card n) as H1.
    set (n1 := <[strings.ToLower (strings.Join (Card.Names card) " & ") := card]> n) in *.
    pose proof (Hins (strings.ToLower (strings.Join (Card.Names card) " / ")) card n1) as H2.
    set (n2 := <[strings.ToLower (strings.Join (Card.Names card) " / ") := card]> n1) in *.
    pose proof (Hins (strings.ToLower (strings.Join (Card.Names card) " // ")) card n2) as H3.
    set (n3 := <[strings.ToLower (strings.Join (Card.Names card) " // ") := card]> n2) in *.
    pose proof (Hins (strings.ToLower (normalizeCardName (Card.Name card))) card n3) as H4.
    lia.
  - pose proof (Hins (strings.ToLower (normalizeCardName (Card.Name card))) card n). lia.
Qed.

Lemma generateNormalized_size (c : Cards) (visit : list (string * Card)) :
  size (Cards.normalized (Cards.generateNormalized c visit))
  <= size (Cards.normalized c) + 4 * length visit.
Proof.
  unfold Cards.generateNormalized. cbn [Cards.normalized].
  generalize (Cards.normalized c) as n.
  induction visit as [|e visit IH]; intros n; cbn [foldl length]; [lia|].
  eapply Nat.le_trans; [apply IH|]. pose proof (indexCard_size n e.2). lia.
Qed.

(** X4.  The index a refresh builds is derived from the primary map and
    from nothing else: a key is present exactly when some card of the map
    is entered under it, every entry holds a card of the map that is
    entered under its key, and there are at most four entries per card. *)
Theorem index_derived_from_map (m : gmap string Card)
    (visit : list (string * Card)) (key : string) :
  MapRange m visit ->
  (is_Some (Cards.normalized (Cards.generateNormalized (Cards.mk m ∅) visit) !! key)
   <-> exists k card, m !! k = Some card /\ In key (keysOf card))
  /\ (forall card,
        Cards.normalized (Cards.generateNormalized (Cards.mk m ∅) visit) !! key
        = Some card ->
        (exists k, m !! k = Some card) /\ In key (keysOf card))
  /\ size (Cards.normalized (Cards.generateNormalized (Cards.mk m ∅) visit))
     <= 4 * size m.
Proof.
  intros Hrange.
  assert (Hentry : forall card,
            Cards.normalized (Cards.generateNormalized (Cards.mk m ∅) visit) !! key
            = Some card ->
            (exists k, m !! k = Some card) /\ In key (keysOf card)).
  { intros card. rewrite generateNormalized_lookup. cbn [Cards.normalized].
    rewrite lookup_empty. destruct (lastProducer key visit) as [w|] eqn:Hw;
      [|discriminate].
    intros [= <-]. destruct (lastProducer_Some _ _ _ Hw) as [Hk Hin].
    split; [|exact Hk]. apply (MapRange_values _ _ _ Hrange), Hin. }
  split; [|split; [exact Hentry|]].
  - split.
    + intros [card Hc]. destruct (Hentry card Hc) as [[k Hk] Hkey]. eauto.
    + intros (k & card & Hk & Hkey).
      destruct (indexed_key (Cards.mk m ∅) visit k card key Hrange Hk Hkey)
        as (_ & _ & _ & (winner & Hw & _) & _).
      rewrite Hw. eauto.
  - pose proof (generateNormalized_size (Cards.mk m ∅) visit) as Hsize.
    cbn [Cards.normalized] in Hsize. rewrite map_size_empty in Hsize.
    assert (Hlen : length visit = size m).
    { rewrite <- length_map_to_list. apply Permutation_length, Hrange. }
    rewrite Hlen in Hsize. exact Hsize.
Qed.

Lemma index_derived_from_map_witness :
  MapRange (Cards.M split) splitVisit
  /\ is_Some (Cards.normalized
                (Cards.generateNormalized (Cards.mk (Cards.M split) ∅) splitVisit)
                !! "fire / ice")
  /\ size (Cards.normalized
             (Cards.generateNormalized (Cards.mk (Cards.M split) ∅) splitVisit))
     <= 4 * size (Cards.M split).
Proof.
  destruct (index_derived_from_map (Cards.M split) splitVisit "fire / ice" split_range)
    as (Hdom & _ & Hsize).
  split; [exact split_range|]. split; [|exact Hsize].
  apply Hdom. exists "Fire", fire. split; [reflexivity|].
  right. left. reflexivity.
Defined.

(** X5.  When no two different cards of the map are entered under a common
    key, the index does not depend on the order in which the map is
    visited. *)
Theorem index_order_independent (m : gmap string Card)
    (visit1 visit2 : list (string * Card)) :
  MapRange m visit1 ->
  MapRange m visit2 ->
  collisionFree (map snd visit1) ->
  Cards.generateNormalized (Cards.mk m ∅) visit1
  = Cards.generateNormalized (Cards.mk m ∅) visit2.
Proof.
  intros H1 H2 Hfree.
  assert (Hin : forall card, In card (map snd visit2) -> In card (map snd visit1)).
  { intros card Hc. apply (MapRange_values _ _ _ H1).
    apply (MapRange_values _ _ _ H2), Hc. }
  assert (Hin' : forall card, In card (map snd visit1) -> In card (map snd visit2)).
  { intros card Hc. apply (MapRange_values _ _ _ H2).
    apply (MapRange_values _ _ _ H1), Hc. }
  unfold Cards.generateNormalized at 1 2. cbn [Cards.M Cards.normalized]. f_equal.
  apply map_eq. intros key.
  pose proof (generateNormalized_lookup (Cards.mk m ∅) visit1 key) as L1.
  pose proof (generateNormalized_lookup (Cards.mk m ∅) visit2 key) as L2.
  unfold Cards.generateNormalized in L1, L2. cbn [Cards.normalized] in L1, L2.
  rewrite L1, L2, lookup_empty.
  destruct (lastProducer key visit1) as [w1|] eqn:Hw1,
           (lastProducer key visit2) as [w2|] eqn:Hw2; try reflexivity.
  - destruct (lastProducer_Some _ _ _ Hw1) as [Hk1 Hv1].
    destruct (lastProducer_Some _ _ _ Hw2) as [Hk2 Hv2].
    f_equal. apply (Hfree w1 w2 key); auto.
  - exfalso. destruct (lastProducer_Some _ _ _ Hw1) as [Hk1 Hv1].
    apply Hin', in_map_iff in Hv1 as (e & <- & He).
    apply (proj1 (lastProducer_None key visit2) Hw2 e He Hk1).
  - exfalso. destruct (lastProducer_Some _ _ _ Hw2) as [Hk2 Hv2].
    apply Hin, in_map_iff in Hv2 as (e & <- & He).
    apply (proj1 (lastProducer_None key visit1) Hw1 e He Hk2).
Qed.

Lemma library_range : MapRange library libraryVisit.
Proof. map_range. Qed.

Lemma index_order_independent_witness :
  collisionFree (map snd libraryVisit)
  /\ MapRange library (reverse libraryVisit)
  /\ Cards.generateNormalized (Cards.mk library ∅) libraryVisit
     = Cards.generateNormalized (Cards.mk library ∅) (reverse libraryVisit).
Proof.
  assert (Hfree : collisionFree (map snd libraryVisit)).
  { intros c1 c2 key [<-|[<-|[]]] [<-|[<-|[]]] H1 H2; try reflexivity; exfalso.
    - destruct H1 as [<-|[]]. destruct H2 as [H2|[]]. discriminate.
    - destruct H1 as [<-|[]]. destruct H2 as [H2|[]]. discriminate. }
  assert (Hrev : MapRange library (reverse libraryVisit)).
  { unfold MapRange. rewrite reverse_Permutation. exact library_range. }
  split; [exact Hfree|]. split; [exact Hrev|].
  apply index_order_independent; [exact library_range|exact Hrev|exact Hfree].
Defined.

(** ** Lookup: spelling variants *)

Lemma replaceFrom_quote q :
  strings.replaceFrom "’" "'" 0 ("’" +:+ q) = "'" +:+ strings.Replace q "’" "'".
Proof. destruct q; reflexivity. Qed.

Lemma normalize_ascii p : isASCII p = true -> normalizeCardName p = p.
Proof.
  intros Hp. unfold normalizeCardName.
  assert (H1 : strings.Replace p "Æ" "Ae" = p) by (apply Replace_ascii; [reflexivity|exact Hp]).
  rewrite H1. apply Replace_ascii; [reflexivity|exact Hp].
Qed.

Lemma normalize_quote p q :
  isASCII p = true -> isASCII q = true ->
  normalizeCardName (p +:+ "’" +:+ q) = p +:+ "'" +:+ q.
Proof.
  intros Hp Hq. unfold normalizeCardName.
  assert (H1 : strings.Replace (p +:+ "’" +:+ q) "Æ" "Ae" = p +:+ "’" +:+ q).
  { unfold strings.Replace.
    rewrite replaceFrom_ascii by (reflexivity || exact Hp).
    change (strings.replaceFrom "Æ" "Ae" 0 ("’" +:+ q))
      with ("’" +:+ strings.Replace q "Æ" "Ae").
    rewrite Replace_ascii by (reflexivity || exact Hq). reflexivity. }
  rewrite H1. unfold strings.Replace.
  rewrite replaceFrom_ascii by (reflexivity || exact Hp).
  rewrite replaceFrom_quote.
  rewrite Replace_ascii by (reflexivity || exact Hq). reflexivity.
Qed.

(** X6.  What [LookupNormalized] ignores.  Around ASCII text, the right
    single quote and the apostrophe are interchangeable, and so are "Æ"
    and "Ae"; on ASCII input the lookup is plain case folding, so two
    inputs that differ only in letter case give the same answer. *)
Theorem Lookup_spelling_variants (c : Cards) (p q : string) :
  isASCII p = true -> isASCII q = true ->
  Cards.LookupNormalized c (p +:+ "’" +:+ q) = Cards.LookupNormalized c (p +:+ "'" +:+ q)
  /\ Cards.LookupNormalized c (p +:+ "Æ" +:+ q)
     = Cards.LookupNormalized c (p +:+ "Ae" +:+ q)
  /\ Cards.LookupNormalized c p = Cards.normalized c !! strings.ToLower p
  /\ (strings.ToLower p = strings.ToLower q ->
      Cards.LookupNormalized c p = Cards.LookupNormalized c q).
Proof.
  intros Hp Hq. unfold Cards.LookupNormalized.
  assert (Ha : forall mid, isASCII mid = true -> isASCII (p +:+ mid +:+ q) = true).
  { intros mid Hm. rewrite !isASCII_app, Hp, Hm, Hq. reflexivity. }
  rewrite (normalize_quote p q Hp Hq), (normalize_upper_ligature p q Hp Hq).
  rewrite (normalize_ascii _ (Ha "'" eq_refl)), (normalize_ascii _ (Ha "Ae" eq_refl)).
  rewrite (normalize_ascii p Hp), (normalize_ascii q Hq).
  repeat split. intros ->. reflexivity.
Qed.

Lemma Lookup_spelling_variants_witness :
  Cards.LookupNormalized (Cards.generateNormalized (Cards.mk vials ∅) vialsVisit)
    "Aether Vial"
  = Cards.LookupNormalized (Cards.generateNormalized (Cards.mk vials ∅) vialsVisit)
      "Æther Vial"
  /\ Cards.LookupNormalized (Cards.generateNormalized (Cards.mk vials ∅) vialsVisit)
       "Æther Vial" = Some aetherVial.
Proof.
  split; [|reflexivity]. symmetry.
  exact (proj1 (proj2 (Lookup_spelling_variants
           (Cards.generateNormalized (Cards.mk vials ∅) vialsVisit)
           "" "ther Vial" eq_refl eq_refl))).
Defined.

(** ** Joined names are indexed as they are spelled *)

Lemma string_app_assoc (a b c : string) : (a +:+ b) +:+ c = a +:+ b +:+ c.
Proof.
  induction a as [|x a IH]; [reflexivity|].
  rewrite (string_app_cons x a b), (string_app_cons x (a +:+ b) c),
    (string_app_cons x a (b +:+ c)), IH.
  reflexivity.
Qed.

Lemma ToLower_quote rest :
  strings.ToLower ("’" +:+ rest) = "’" +:+ strings.ToLower rest.
Proof. reflexivity. Qed.

Lemma ToLower_ligature rest :
  strings.ToLower ("Æ" +:+ rest) = "æ" +:+ strings.ToLower rest.
Proof. reflexivity. Qed.

(** X7.  [generateNormalized] enters the joined component names case-folded
    but not character-normalized, while [LookupNormalized] normalizes its
    input.  So for a card with component names [A; B], where [A] is ASCII
    text around a right single quote: the index has the joined key with
    the quote in it, but a lookup of the joined name as the card spells it
    reads the key with an apostrophe instead, a different key, and finds
    nothing unless some card is entered under that other key. *)
Theorem joined_name_with_quote_not_found (m : gmap string Card)
    (visit : list (string * Card)) (k : string) (card : Card)
    (p r B sep : string) :
  MapRange m visit ->
  m !! k = Some card ->
  Card.Names card = [p +:+ "’" +:+ r; B] ->
  In sep [" & "; " / "; " // "] ->
  isASCII p = true -> isASCII r = true -> isASCII B = true ->
  is_Some (Cards.normalized (Cards.generateNormalized (Cards.mk m ∅) visit)
             !! (strings.ToLower p +:+ "’" +:+ strings.ToLower (r +:+ sep +:+ B)))
  /\ Cards.LookupNormalized (Cards.generateNormalized (Cards.mk m ∅) visit)
       ((p +:+ "’" +:+ r) +:+ sep +:+ B)
     = Cards.normalized (Cards.generateNormalized (Cards.mk m ∅) visit)
         !! (strings.ToLower p +:+ "'" +:+ strings.ToLower (r +:+ sep +:+ B))
  /\ ((forall e, In e visit ->
         ~ In (strings.ToLower p +:+ "'" +:+ strings.ToLower (r +:+ sep +:+ B))
              (keysOf e.2)) ->
      Cards.LookupNormalized (Cards.generateNormalized (Cards.mk m ∅) visit)
        ((p +:+ "’" +:+ r) +:+ sep +:+ B) = None).
Proof.
  intros Hrange Hk Hnames Hsep Hp Hr HB.
  assert (Hs : isASCII sep = true).
  { destruct Hsep as [<-|[<-|[<-|[]]]]; reflexivity. }
  assert (Hrest : isASCII (r +:+ sep +:+ B) = true).
  { rewrite !isASCII_app, Hr, Hs, HB. reflexivity. }
  assert (Hassoc : (p +:+ "’" +:+ r) +:+ sep +:+ B = p +:+ "’" +:+ r +:+ sep +:+ B).
  { rewrite 2 string_app_assoc. reflexivity. }
  assert (Hstored : strings.ToLower ((p +:+ "’" +:+ r) +:+ sep +:+ B)
                    = strings.ToLower p +:+ "’" +:+ strings.ToLower (r +:+ sep +:+ B)).
  { rewrite Hassoc, (ToLower_ascii_app p _ Hp), ToLower_quote. reflexivity. }
  assert (Hread : strings.ToLower (normalizeCardName ((p +:+ "’" +:+ r) +:+ sep +:+ B))
                  = strings.ToLower p +:+ "'" +:+ strings.ToLower (r +:+ sep +:+ B)).
  { rewrite Hassoc, (normalize_quote p _ Hp Hrest), (ToLower_ascii_app p _ Hp).
    reflexivity. }
  split; [|split].
  - destruct (indexed_key (Cards.mk m ∅) visit k card _ Hrange Hk
                (joinedKey_in_keysOf card _ _ sep Hnames Hsep))
      as (_ & _ & _ & (winner & Hw & _) & _).
    rewrite <- Hstored, Hw. eauto.
  - unfold Cards.LookupNormalized. rewrite Hread. reflexivity.
  - intros Hnone. unfold Cards.LookupNormalized. rewrite Hread.
    rewrite generateNormalized_lookup. apply lastProducer_None in Hnone.
    rewrite Hnone. apply lookup_empty.
Qed.

Lemma hives_range : MapRange hives hivesVisit.
Proof. map_range. Qed.

Lemma joined_name_with_quote_witness :
  Cards.normalized (Cards.generateNormalized (Cards.mk hives ∅) hivesVisit)
    !! "hive’s edge // sting" = Some hive
  /\ Cards.LookupNormalized (Cards.generateNormalized (Cards.mk hives ∅) hivesVisit)
       "Hive’s Edge // Sting" = None.
Proof.
  split; [reflexivity|].
  destruct (joined_name_with_quote_not_found hives hivesVisit "Hive’s Edge" hive
              "Hive" "s Edge" "Sting" " // " hives_range eq_refl eq_refl
              (or_intror (or_intror (or_introl eq_refl))) eq_refl eq_refl eq_refl)
    as (_ & _ & Hnone).
  apply Hnone. intros e [<-|[]] Hin.
  repeat (destruct Hin as [Hin|Hin]; [discriminate|]). exact Hin.
Defined.

(** ** Queries compose *)

Lemma spaceWidth_le a : strings.spaceWidth a <= String.length a.
Proof.
  destruct a as [|c [|d [|e rest]]]; cbn [strings.spaceWidth String.length].
  - lia.
  - destruct (strings.asciiSpace c); lia.
  - destruct (strings.asciiSpace c); [lia|]. destruct (_ && _); lia.
  - destruct (strings.asciiSpace c); [lia|]. destruct (_ && _); [lia|].
    match goal with |- context [if ?b then 3 else 0] => destruct b end; lia.
Qed.

Lemma spaceWidth_before_space c a b :
  strings.spaceWidth (String c a +:+ " " +:+ b) = strings.spaceWidth (String c a).
Proof.
  destruct a as [|d [|e rest]].
  - change (String c "" +:+ " " +:+ b) with (String c (String " " b)).
    cbn [strings.spaceWidth]. destruct (strings.asciiSpace c); [reflexivity|].
    change (strings.code " ") with 32%N.
    change (32 =? 133)%N with false. change (32 =? 160)%N with false.
    rewrite andb_false_r. destruct b as [|e rest]; [reflexivity|].
    change (32 =? 154)%N with false. change (32 =? 128)%N with false.
    change (32 =? 129)%N with false.
    rewrite !andb_false_r. reflexivity.
  - change (String c (String d "") +:+ " " +:+ b)
      with (String c (String d (String " " b))).
    cbn [strings.spaceWidth]. destruct (strings.asciiSpace c); [reflexivity|].
    destruct (_ && _); [reflexivity|].
    change (strings.code " ") with 32%N.
    change (32 =? 128)%N with false. change (128 <=? 32)%N with false.
    change (32 =? 168)%N with false. change (32 =? 169)%N with false.
    change (32 =? 175)%N with false. change (32 =? 159)%N with false.
    cbn [andb orb]. rewrite !andb_false_r. reflexivity.
  - change (String c (String d (String e rest)) +:+ " " +:+ b)
      with (String c (String d (String e (rest +:+ " " +:+ b)))).
    reflexivity.
Qed.

Lemma fieldsFrom_space a : forall skip cur b,
  skip <= String.length a ->
  strings.fieldsFrom skip cur (a +:+ " " +:+ b)
  = strings.fieldsFrom skip cur a ++ strings.Fields b.
Proof.
  induction a as [|c a IH]; intros skip cur b Hskip.
  - cbn [String.length] in Hskip. assert (skip = 0) as -> by lia.
    change ("" +:+ " " +:+ b) with (String " " b). reflexivity.
  - pose proof (spaceWidth_before_space c a b) as Hw.
    pose proof (spaceWidth_le (String c a)) as Hle.
    rewrite string_app_cons in Hw |- *. cbn [String.length] in Hskip, Hle.
    cbn [strings.fieldsFrom]. destruct skip as [|k].
    + rewrite Hw. destruct (strings.spaceWidth (String c a)) as [|k].
      * apply IH. lia.
      * rewrite IH by lia. rewrite app_assoc. reflexivity.
    + apply IH. lia.
Qed.

Lemma Fields_space a b :
  strings.Fields (a +:+ " " +:+ b) = strings.Fields a ++ strings.Fields b.
Proof. unfold strings.Fields at 1 2. apply fieldsFrom_space. lia. Qed.

Lemma added_app g toks1 toks2 :
  added g (toks1 ++ toks2) = added g toks1 ++ added g toks2.
Proof. unfold added. apply bind_app. Qed.

Lemma ParseQuery_group g s : group g (ParseQuery s) = added g (strings.Fields s).
Proof. unfold ParseQuery. rewrite parse_fields_group. destruct g; reflexivity. Qed.

Lemma Match_groups (q q1 q2 : Query) (c : Card) :
  (forall g, group g q = group g q1 ++ group g q2) ->
  Query.Match q c = Query.Match q1 c && Query.Match q2 c.
Proof.
  intros Hg. unfold Query.Match.
  pose proof (Hg GName) as Hn. pose proof (Hg GRule) as Hr.
  pose proof (Hg GType) as Ht. pose proof (Hg GColor) as Hc.
  cbn [group] in Hn, Hr, Ht, Hc. rewrite Hn, Hr, Ht, Hc, !forallb_app.
  repeat match goal with |- context [forallb ?f ?l] =>
    destruct (forallb f l) end; reflexivity.
Qed.

(** X8.  Two queries written one after the other with a space between
    them make the conjunction of the two: every predicate group of the
    joint query is the group of the first followed by the group of the
    second, and a card matches the joint query exactly when it matches
    both. *)
Theorem ParseQuery_conjunction (a b : string) :
  (forall g, group g (ParseQuery (a +:+ " " +:+ b))
             = group g (ParseQuery a) ++ group g (ParseQuery b))
  /\ (forall c : Card,
        Query.Match (ParseQuery (a +:+ " " +:+ b)) c
        = Query.Match (ParseQuery a) c && Query.Match (ParseQuery b) c).
Proof.
  assert (Hg : forall g, group g (ParseQuery (a +:+ " " +:+ b))
                         = group g (ParseQuery a) ++ group g (ParseQuery b)).
  { intros g. rewrite !ParseQuery_group, Fields_space. apply added_app. }
  split; [exact Hg|]. intros c. apply Match_groups, Hg.
Qed.

(** ** Capital field prefixes *)

(** X9.  [ParseQuery] compares the field prefixes byte for byte, so a field
    that starts with a capital "O:", "T:", "C:" or "C!" is free text: it
    adds the whole field, lowercased, to the name predicates, and leaves
    the other groups alone.  A query made of such a field alone therefore
    asks that the card's lowercased name contain "t:..." and does not look
    at the type line. *)
Theorem capital_prefix_is_name (q : Query) (rest : string) :
  parseField q ("O:" +:+ rest)
  = Query.mk (Query.Name q ++ ["o:" +:+ strings.ToLower rest])
             (Query.Rule q) (Query.Type_ q) (Query.Color q)
  /\ parseField q ("T:" +:+ rest)
     = Query.mk (Query.Name q ++ ["t:" +:+ strings.ToLower rest])
                (Query.Rule q) (Query.Type_ q) (Query.Color q)
  /\ parseField q ("C:" +:+ rest)
     = Query.mk (Query.Name q ++ ["c:" +:+ strings.ToLower rest])
                (Query.Rule q) (Query.Type_ q) (Query.Color q)
  /\ parseField q ("C!" +:+ rest)
     = Query.mk (Query.Name q ++ ["c!" +:+ strings.ToLower rest])
                (Query.Rule q) (Query.Type_ q) (Query.Color q)
  /\ (forall c : Card,
        Query.Match (parseField (Query.mk [] [] [] []) ("T:" +:+ rest)) c
        = strings.Contains (strings.ToLower (Card.Name c))
            ("t:" +:+ strings.ToLower rest)).
Proof.
  repeat split. intros c.
  change (parseField (Query.mk [] [] [] []) ("T:" +:+ rest))
    with (Query.mk ["t:" +:+ strings.ToLower rest] [] [] []).
  unfold Query.Match. cbn [Query.Name Query.Rule Query.Type_ Query.Color forallb].
  rewrite !andb_true_r. reflexivity.
Qed.

(** ** More on the store *)

Section StoreMore.
Context `{Runtime}.

Import Store.

Lemma fireReady_fields s :
  cards (fireReady s) = cards s /\ etag (fireReady s) = etag s
  /\ ready (fireReady s) = ready s
  /\ isClosed (ready s) (chans (fireReady s)) = true.
Proof.
  unfold fireReady. destruct (isClosed (ready s) (chans s)) eqn:E.
  - repeat split. exact E.
  - repeat split. apply isClosed_fired. cbn. apply elem_of_union. left.
    apply elem_of_singleton. reflexivity.
Qed.

Lemma maybeUpdate_fresh rt s c v :
  fetch rt (etag s) = Fresh c v ->
  cards (maybeUpdate rt s).1 = Some c
  /\ etag (maybeUpdate rt s).1 = v
  /\ Store.Cards (maybeUpdate rt s).1 = Some (Some c)
  /\ (maybeUpdate rt s).2 = [UpdateSuccessful].
Proof.
  intros Hf. unfold maybeUpdate. rewrite Hf.
  destruct (publish c v s) as [s' notify] eqn:Hp. cbn [fst snd].
  unfold publish, make in Hp. injection Hp as <- <-.
  destruct (fireReady_fields
              (notifyWaiters (next (chans s))
                 (mk (updateFrequency s) (closed s) (ready s) (Some c) v
                     (next (chans s))
                     {| next := S (next (chans s)); fired := fired (chans s) |})))
    as (Hc & He & Hr & Hcl).
  cbn [notifyCh]. unfold Store.Cards. rewrite Hr, Hc, He. cbn [ready] in Hcl |- *.
  rewrite Hcl. repeat split.
Qed.

Lemma fetch_fresh rt e c v :
  fetch rt e = Fresh c v ->
  exists resp m,
    rt e = DoOk resp /\ StatusCode resp = 200%Z /\ ReadErr resp = None
    /\ Unmarshal (Body resp) = inr m
    /\ c = Cards.generateNormalized (Cards.mk m ∅) (rangeOrder m)
    /\ v = Etag resp.
Proof.
  unfold fetch. destruct (rt e) as [err|resp]; [discriminate|].
  case_bool_decide as H304; [discriminate|].
  case_bool_decide as H200; cbn [negb]; [|discriminate].
  destruct (ReadErr resp) eqn:Hr; [discriminate|].
  destruct (Unmarshal (Body resp)) as [err|m] eqn:Hd; [discriminate|].
  intros [= <- <-]. exists resp, m. repeat split; assumption.
Qed.

(** X10.  A cycle that logs "update successful" has published what it
    fetched, and the next cycle presents the new validator.  Such a cycle
    got a 200 response whose body was read and decoded; the store then
    holds the catalog built from the decoded map and the response's Etag,
    and [Cards] returns that catalog; if the source then answers 304 to
    that Etag, the following cycle changes nothing and logs nothing. *)
Theorem maybeUpdate_success_then_not_modified
    (rt1 rt2 : RoundTrip) (s : Store) (resp2 : Response) :
  In UpdateSuccessful (maybeUpdate rt1 s).2 ->
  exists resp1 m,
    rt1 (etag s) = DoOk resp1
    /\ StatusCode resp1 = 200%Z
    /\ ReadErr resp1 = None
    /\ Unmarshal (Body resp1) = inr m
    /\ cards (maybeUpdate rt1 s).1
       = Some (Cards.generateNormalized (Cards.mk m ∅) (rangeOrder m))
    /\ etag (maybeUpdate rt1 s).1 = Etag resp1
    /\ Store.Cards (maybeUpdate rt1 s).1
       = Some (Some (Cards.generateNormalized (Cards.mk m ∅) (rangeOrder m)))
    /\ (maybeUpdate rt1 s).2 = [UpdateSuccessful]
    /\ (rt2 (Etag resp1) = DoOk resp2 -> StatusCode resp2 = 304%Z ->
        maybeUpdate rt2 (maybeUpdate rt1 s).1 = ((maybeUpdate rt1 s).1, [])).
Proof.
  intros Hlog.
  destruct (fetch rt1 (etag s)) as [log|c v] eqn:Hf.
  - exfalso. unfold maybeUpdate in Hlog. rewrite Hf in Hlog.
    exact (fetch_log _ _ _ Hf Hlog).
  - destruct (fetch_fresh _ _ _ _ Hf) as (resp1 & m & Hrt1 & H200 & Hread & Hdec & -> & ->).
    destruct (maybeUpdate_fresh _ _ _ _ Hf) as (Hc & He & HC & Hl).
    exists resp1, m. repeat split; try assumption.
    intros Hrt2 H304. unfold maybeUpdate at 1. rewrite He. unfold fetch.
    rewrite Hrt2, H304. reflexivity.
Qed.

(** *** After Close *)

Lemma loopHead_budget s : fetchBudget (loopHead s) = 0.
Proof. unfold loopHead. destruct (_ =? _)%Z; reflexivity. Qed.

Lemma run_closed_budget acts : forall w w' evs,
  Inv w -> closed (st w) ∈ fired (chans (st w)) ->
  run acts w = Some (w', evs) ->
  countFetch acts <= fetchBudget (watcher w).
Proof.
  induction acts as [|a acts IH]; intros w w' evs HI Hcl Hrun; [cbn; lia|].
  apply run_cons in Hrun as (w1 & ev & evs' & Hs & Hr & ->).
  destruct (step_closed _ _ _ _ HI Hs) as [Hc1 Hf1].
  assert (Hcl1 : closed (st w1) ∈ fired (chans (st w1))).
  { rewrite Hc1. apply Hf1. left. exact Hcl. }
  pose proof (IH _ _ _ (step_Inv _ _ _ _ HI Hs) Hcl1 Hr) as Hrest.
  unfold countFetch in *. cbn [List.filter].
  destruct w as [s pc]. unfold step in Hs. cbn [st watcher] in *.
  destruct a as [rt| | | | | |]; cbn [isFetch length].
  - destruct pc; try discriminate.
    destruct (fetch rt (etag s)) as [log|c e].
    + injection Hs as <- _. cbn [watcher] in Hrest.
      rewrite loopHead_budget in Hrest. cbn. lia.
    + destruct (publish c e s). injection Hs as <- _. cbn in Hrest |- *. lia.
  - destruct pc; try discriminate. injection Hs as <- _. cbn in Hrest |- *. lia.
  - destruct pc; try discriminate. injection Hs as <- _. cbn [watcher] in Hrest.
    rewrite loopHead_budget in Hrest. cbn. lia.
  - destruct pc; try discriminate. apply isClosed_fired in Hcl. rewrite Hcl in Hs.
    discriminate.
  - destruct pc; try discriminate. destruct (isClosed _ _); [|discriminate].
    injection Hs as <- _. cbn in Hrest |- *. lia.
  - destruct (Close s). injection Hs as <- _. cbn [watcher] in Hrest. lia.
  - destruct (WaitForUpdate s). injection Hs as <- _. cbn [watcher] in Hrest. lia.
Qed.

(** With [s.closed] closed and [watch] asleep or gone, nothing writes the
    catalog or the validator any more. *)
Lemma run_closed_asleep acts : forall w w' evs,
  Inv w -> closed (st w) ∈ fired (chans (st w)) ->
  watcher w = Sleeping \/ watcher w = Exited ->
  run acts w = Some (w', evs) ->
  cards (st w') = cards (st w) /\ etag (st w') = etag (st w).
Proof.
  induction acts as [|a acts IH]; intros w w' evs HI Hcl Hpc Hrun.
  - injection Hrun as <- _. split; reflexivity.
  - apply run_cons in Hrun as (w1 & ev & evs' & Hs & Hr & ->).
    destruct (step_closed _ _ _ _ HI Hs) as [Hc1 Hf1].
    assert (Hcl1 : closed (st w1) ∈ fired (chans (st w1))).
    { rewrite Hc1. apply Hf1. left. exact Hcl. }
    assert (Hsame : (watcher w1 = Sleeping \/ watcher w1 = Exited)
                    /\ cards (st w1) = cards (st w) /\ etag (st w1) = etag (st w)).
    { destruct w as [s pc]. unfold step in Hs. cbn [st watcher] in *.
      destruct a as [rt| | | | | |].
      - destruct Hpc as [->| ->]; discriminate.
      - destruct Hpc as [->| ->]; discriminate.
      - destruct Hpc as [->| ->]; discriminate.
      - destruct Hpc as [->| ->]; [|discriminate].
        apply isClosed_fired in Hcl. rewrite Hcl in Hs. discriminate.
      - destruct Hpc as [->| ->]; [|discriminate].
        destruct (isClosed _ _); [|discriminate]. injection Hs as <- _. cbn. tauto.
      - unfold Close in Hs. destruct (isClosed _ _); injection Hs as <- _; cbn; tauto.
      - unfold WaitForUpdate, make in Hs. injection Hs as <- _. cbn. tauto. }
    destruct Hsame as (Hpc1 & Hc & He).
    destruct (IH _ _ _ (step_Inv _ _ _ _ HI Hs) Hcl1 Hpc1 Hr) as [Hc' He'].
    split; congruence.
Qed.

(** X11.  [Close] stops the schedule but not a cycle in flight.  In a run
    of a new store, after a call of [Close] at most one refresh cycle
    still issues its request; and if [watch] was asleep in its select, or
    had returned, when [Close] was called, the catalog and the validator
    are never written again. *)
Theorem Close_leaves_one_cycle_at_most
    (before after : list Action) (w w' : World) (evs evs' : list Event) :
  run before NewStore = Some (w, evs) ->
  run (CallClose :: after) w = Some (w', evs') ->
  countFetch after <= 1
  /\ (watcher w = Sleeping \/ watcher w = Exited ->
      countFetch after = 0
      /\ cards (st w') = cards (st w) /\ etag (st w') = etag (st w)).
Proof.
  intros Hbefore Hafter.
  pose proof (run_Inv _ _ _ _ Inv_NewStore Hbefore) as HI.
  apply run_cons in Hafter as (w1 & ev & evs1 & Hs & Hr & _).
  pose proof (step_Inv _ _ _ _ HI Hs) as HI1.
  destruct (step_closed _ _ _ _ HI Hs) as [Hc1 Hf1].
  assert (Hcl1 : closed (st w1) ∈ fired (chans (st w1))).
  { rewrite Hc1. apply Hf1. right. reflexivity. }
  assert (Hw1 : watcher w1 = watcher w /\ cards (st w1) = cards (st w)
                /\ etag (st w1) = etag (st w)).
  { destruct w as [s pc]. unfold step in Hs. cbn [st watcher] in *.
    assert (Hs' : (let '(s0, err) := Close s in
                   Some ({| st := s0; watcher := pc |}, CloseReturned err))
                  = Some (w1, ev)) by (destruct pc; exact Hs).
    unfold Close in Hs'. destruct (isClosed _ _); injection Hs' as <- _; cbn; tauto. }
  destruct Hw1 as (Hpc & Hc & He).
  pose proof (run_closed_budget _ _ _ _ HI1 Hcl1 Hr) as Hb.
  split.
  - destruct (watcher w1); cbn in Hb; lia.
  - intros Hasleep. rewrite <- Hpc in Hasleep. split.
    + destruct Hasleep as [E|E]; rewrite E in Hb; cbn in Hb; lia.
    + destruct (run_closed_asleep _ _ _ _ HI1 Hcl1 Hasleep Hr) as [Hc' He'].
      split; congruence.
Qed.

(** *** A zero interval *)

Lemma run_zero_interval acts : forall w w' evs,
  run acts w = Some (w', evs) ->
  updateFrequency (st w) = 0%Z ->
  watcher w <> Sleeping ->
  countFetch acts <= fetchBudget (watcher w) /\ ~ In Timer acts.
Proof.
  induction acts as [|a acts IH]; intros w w' evs Hrun Hz Hpc.
  - split; [cbn; lia|intros []].
  - apply run_cons in Hrun as (w1 & ev & evs' & Hs & Hr & ->).
    destruct w as [s pc]. unfold step in Hs. cbn [st watcher] in *.
    assert (Hlh : forall s', updateFrequency s' = 0%Z -> loopHead s' = Exited).
    { intros s' E. unfold loopHead. rewrite E. reflexivity. }
    unfold countFetch in *. cbn [List.filter].
    destruct a as [rt| | | | | |]; cbn [isFetch length].
    + destruct pc; try discriminate.
      destruct (fetch rt (etag s)) as [log|c e].
      * injection Hs as <- _. rewrite (Hlh s Hz) in Hr.
        destruct (IH _ _ _ Hr Hz ltac:(discriminate)) as [Hn Ht].
        cbn in Hn |- *. split; [lia|]. intros [E|E]; [discriminate|tauto].
      * unfold publish, make in Hs. injection Hs as <- _.
        destruct (IH _ _ _ Hr Hz ltac:(discriminate)) as [Hn Ht].
        cbn in Hn |- *. split; [lia|]. intros [E|E]; [discriminate|tauto].
    + destruct pc; try discriminate. injection Hs as <- _.
      destruct (IH _ _ _ Hr Hz ltac:(discriminate)) as [Hn Ht].
      cbn in Hn |- *. split; [lia|]. intros [E|E]; [discriminate|tauto].
    + destruct pc; try discriminate. injection Hs as <- _.
      assert (Hz' : updateFrequency (fireReady s) = 0%Z).
      { unfold fireReady. destruct (isClosed _ _); exact Hz. }
      rewrite (Hlh _ Hz') in Hr.
      destruct (IH _ _ _ Hr Hz' ltac:(discriminate)) as [Hn Ht].
      cbn in Hn |- *. split; [lia|]. intros [E|E]; [discriminate|tauto].
    + destruct pc; try discriminate. contradiction.
    + destruct pc; try discriminate. contradiction.
    + assert (Hz' : updateFrequency (Close s).1 = 0%Z).
      { unfold Close. destruct (isClosed _ _); exact Hz. }
      destruct (Close s) as [s' err]. injection Hs as <- _.
      destruct (IH _ _ _ Hr Hz' Hpc) as [Hn Ht].
      cbn [watcher] in Hn. split; [lia|]. intros [E|E]; [discriminate|tauto].
    + destruct (WaitForUpdate s) as [s' h] eqn:Hw. injection Hs as <- _.
      assert (Hz' : updateFrequency s' = 0%Z).
      { unfold WaitForUpdate, make in Hw. injection Hw as <- _. exact Hz. }
      destruct (IH _ _ _ Hr Hz' Hpc) as [Hn Ht].
      cbn [watcher] in Hn. split; [lia|]. intros [E|E]; [discriminate|tauto].
Qed.

(** X12.  With [updateFrequency] zero, [watch] makes its first attempt and
    returns: whatever that attempt brings and whatever callers do, a run
    of the store contains at most one refresh cycle and no timer ever
    fires. *)
Theorem zero_interval_single_attempt (s : Store) (acts : list Action)
    (w : World) (evs : list Event) :
  updateFrequency s = 0%Z ->
  run acts {| st := s; watcher := Fetching |} = Some (w, evs) ->
  countFetch acts <= 1 /\ ~ In Timer acts.
Proof.
  intros Hz Hrun.
  apply (run_zero_interval acts {| st := s; watcher := Fetching |} w evs Hrun Hz).
  discriminate.
Qed.

(** *** What a run never undoes *)

Lemma step_monotone a w w' ev :
  step a w = Some (w', ev) ->
  ready (st w') = ready (st w)
  /\ (forall ch, ch ∈ fired (chans (st w)) -> ch ∈ fired (chans (st w')))
  /\ (cards (st w) <> None -> cards (st w') <> None)
  /\ (isFetch a = false ->
      cards (st w') = cards (st w) /\ etag (st w') = etag (st w)).
Proof.
  intros Hs. destruct w as [s pc]. unfold step in Hs. cbn [st watcher] in *.
  destruct a as [rt| | | | | |];
    [destruct pc; try discriminate ..| |].
  - destruct (fetch rt (etag s)) as [log|c e].
    + injection Hs as <- _. cbn. repeat split; auto.
    + unfold publish, make in Hs. injection Hs as <- _. cbn.
      repeat split; auto; discriminate.
  - injection Hs as <- _. unfold notifyWaiters, withChans, close. cbn.
    repeat split; auto. intros ch Hch. apply elem_of_union. right. exact Hch.
  - injection Hs as <- _. unfold fireReady. destruct (isClosed _ _); cbn;
      repeat split; auto. intros ch Hch. apply elem_of_union. right. exact Hch.
  - destruct (isClosed _ _); [discriminate|]. injection Hs as <- _. cbn.
    repeat split; auto.
  - destruct (isClosed _ _); [|discriminate]. injection Hs as <- _. cbn.
    repeat split; auto.
  - unfold Close in Hs. destruct (isClosed _ _); injection Hs as <- _; cbn;
      repeat split; auto. intros ch Hch. apply elem_of_union. right. exact Hch.
  - unfold WaitForUpdate, make, withChans in Hs. injection Hs as <- _. cbn.
    repeat split; auto.
Qed.

(** X13.  What a run of the store never undoes, from any state: a channel
    once closed stays closed, so [Cards], once it returns, never blocks
    again, and a handle that delivers keeps delivering; the catalog
    pointer, once set, never goes back to nil; and only a refresh cycle
    writes the catalog and the validator. *)
Theorem run_monotone (acts : list Action) (w w' : World) (evs : list Event)
    (h : Handle) :
  run acts w = Some (w', evs) ->
  (Store.Cards (st w) <> None -> Store.Cards (st w') <> None)
  /\ (delivers h (st w) <> None -> delivers h (st w') <> None)
  /\ (cards (st w) <> None -> cards (st w') <> None)
  /\ (countFetch acts = 0 ->
      cards (st w') = cards (st w) /\ etag (st w') = etag (st w)).
Proof.
  revert w w' evs. induction acts as [|a acts IH]; intros w w' evs Hrun.
  - injection Hrun as <- _. repeat split; auto.
  - apply run_cons in Hrun as (w1 & ev & evs' & Hs & Hr & ->).
    destruct (step_monotone _ _ _ _ Hs) as (Hrd & Hfired & Hnil & Hsame).
    destruct (IH _ _ _ Hr) as (IH1 & IH2 & IH3 & IH4).
    assert (Hclosed : forall ch, isClosed ch (chans (st w)) = true ->
                                 isClosed ch (chans (st w1)) = true).
    { intros ch E. apply isClosed_fired. apply Hfired. apply isClosed_fired, E. }
    split; [|split; [|split]].
    + intros HC. apply IH1. unfold Store.Cards in *. rewrite Hrd.
      destruct (isClosed (ready (st w)) (chans (st w))) eqn:E; [|contradiction].
      rewrite (Hclosed _ E). discriminate.
    + intros HD. apply IH2. unfold delivers, Store.Cards in *. rewrite Hrd.
      destruct (isClosed (signal h) (chans (st w))) eqn:E1; [|contradiction].
      destruct (isClosed (ready (st w)) (chans (st w))) eqn:E2; [|contradiction].
      rewrite (Hclosed _ E1), (Hclosed _ E2). discriminate.
    + intros Hc. apply IH3, Hnil, Hc.
    + unfold countFetch. cbn [List.filter].
      destruct (isFetch a) eqn:Ef; cbn [length]; [discriminate|].
      intros Hz. destruct (Hsame eq_refl) as [Hc He].
      destruct (IH4 Hz) as [Hc' He']. split; congruence.
Qed.

End StoreMore.

Section StoreMoreRuns.
#[local] Existing Instance fixtureRuntime.

Import Store.

Lemma maybeUpdate_success_then_not_modified_witness :
  cards (maybeUpdate (server "v1" shockFeed) init).1 = Some shockCatalog
  /\ etag (maybeUpdate (server "v1" shockFeed) init).1 = "v1"
  /\ maybeUpdate (server "v1" shockFeed) (maybeUpdate (server "v1" shockFeed) init).1
     = ((maybeUpdate (server "v1" shockFeed) init).1, []).
Proof.
  assert (Hlog : In UpdateSuccessful (maybeUpdate (server "v1" shockFeed) init).2)
    by (vm_compute; left; reflexivity).
  destruct (maybeUpdate_success_then_not_modified
              (server "v1" shockFeed) (server "v1" shockFeed) init
              {| StatusCode := 304; Body := ""; ReadErr := None; Etag := "v1" |} Hlog)
    as (resp1 & m & Hrt & _ & _ & _ & _ & He & _ & _ & Hnext).
  vm_compute in Hrt. injection Hrt as <-.
  split; [vm_compute; reflexivity|]. split; [exact He|].
  apply Hnext; vm_compute; reflexivity.
Defined.

(** A cycle in flight when [Close] is called still publishes. *)
Lemma Close_leaves_one_cycle_witness :
  exists w' evs',
    run (CallClose :: firstRefresh ++ [Stop]) NewStore = Some (w', evs')
    /\ cards (st w') = Some shockCatalog
    /\ countFetch (firstRefresh ++ [Stop]) <= 1.
Proof.
  eexists _, _. split; [vm_compute; reflexivity|]. split; [vm_compute; reflexivity|].
  refine (proj1 (Close_leaves_one_cycle_at_most [] (firstRefresh ++ [Stop])
                   NewStore _ [] _ eq_refl _)).
  vm_compute. reflexivity.
Defined.

Lemma zero_interval_witness :
  exists w evs,
    run (firstRefresh ++ [CallClose]) {| st := singleShot; watcher := Fetching |}
    = Some (w, evs)
    /\ watcher w = Exited
    /\ countFetch (firstRefresh ++ [CallClose]) <= 1.
Proof.
  eexists _, _. split; [vm_compute; reflexivity|]. split; [reflexivity|].
  refine (proj1 (zero_interval_single_attempt singleShot
                   (firstRefresh ++ [CallClose]) _ _ eq_refl _)).
  vm_compute. reflexivity.
Defined.

Lemma run_monotone_witness :
  exists w w' evs evs' h,
    run firstRefresh NewStore = Some (w, evs)
    /\ run [CallWaitForUpdate; CallClose; Stop] w = Some (w', evs')
    /\ head evs' = Some (WaitReturned h)
    /\ Store.Cards (st w) = Some (Some shockCatalog)
    /\ Store.Cards (st w') <> None
    /\ cards (st w') = cards (st w).
Proof.
  eexists _, _, _, _, _.
  split; [vm_compute; reflexivity|]. split; [vm_compute; reflexivity|].
  split; [reflexivity|]. split; [vm_compute; reflexivity|].
  match goal with
  | |- Store.Cards (st ?w') <> None /\ cards (st ?w') = cards (st ?w) =>
      pose proof (run_monotone [CallWaitForUpdate; CallClose; Stop] w w' _
                    {| signal := 3; out := 4 |} ltac:(vm_compute; reflexivity))
        as (HC & _ & _ & Hsame)
  end.
  split; [apply HC; discriminate|]. apply Hsame. reflexivity.
Defined.

End StoreMoreRuns.

(** ** handleInline *)

Example QueryEscape_name :
  QueryEscape "Æther Vial, Jace's" = "%C3%86ther+Vial%2C+Jace%27s".
Proof. vm_compute. reflexivity. Qed.

Lemma inlineLoop_take cards : forall results,
  inlineLoop results cards = results ++ (article <$> take (11 - length results) cards).
Proof.
  induction cards as [|c cards IH]; intros results; cbn [inlineLoop].
  - rewrite take_nil, app_nil_r. reflexivity.
  - destruct (10 <? length results) eqn:E.
    + apply Nat.ltb_lt in E. replace (11 - length results) with 0 by lia.
      rewrite app_nil_r. reflexivity.
    + apply Nat.ltb_ge in E. rewrite IH, length_app. cbn [length].
      replace (11 - length results) with (S (11 - (length results + 1))) by lia.
      cbn [take fmap list_fmap]. rewrite <- app_assoc. reflexivity.
Qed.

(** X14.  The loop of [handleInline] makes one article per card, in order,
    for the first eleven cards (its guard lets an eleventh through), and
    no more: the reply has [min 11 (len cards)] results. *)
Theorem inlineLoop_first_eleven (cards : list Card) :
  inlineLoop [] cards = article <$> take 11 cards
  /\ length (inlineLoop [] cards) = Nat.min 11 (length cards).
Proof.
  rewrite inlineLoop_take. cbn [app length Nat.sub]. split; [reflexivity|].
  rewrite length_fmap, length_take. reflexivity.
Qed.

Lemma substring_97_length s :
  String.length (String.substring 0 97 s +:+ "...") <= 100.
Proof.
  assert (Happ : forall a b, String.length (a +:+ b) = String.length a + String.length b).
  { intros a b. induction a as [|x a IH]; [reflexivity|].
    rewrite string_app_cons. cbn [String.length]. rewrite IH. reflexivity. }
  rewrite Happ, substring_prefix_length. cbn [String.length]. lia.
Qed.

(** X15.  The description of an article is the card's rules text when that
    has at most 100 bytes, and otherwise its first 97 bytes followed by
    "..."; it never exceeds 100 bytes.  The article's id is the card's
    name. *)
Theorem article_description (c : Card) :
  String.length (Description (article c)) <= 100
  /\ (String.length (Card.Text c) <= 100 -> Description (article c) = Card.Text c)
  /\ (100 < String.length (Card.Text c) ->
      Description (article c) = String.substring 0 97 (Card.Text c) +:+ "..."
      /\ String.length (Description (article c)) = 100)
  /\ ID (article c) = Card.Name c.
Proof.
  unfold article, maxDescription. cbn [Description ID].
  change (100 - 3) with 97.
  destruct (100 <? String.length (Card.Text c)) eqn:E.
  - apply Nat.ltb_lt in E. split; [apply substring_97_length|].
    split; [lia|]. split; [|reflexivity]. intros _. split; [reflexivity|].
    assert (Happ : forall a b, String.length (a +:+ b)
                               = String.length a + String.length b).
    { intros a b. induction a as [|x a IH]; [reflexivity|].
      rewrite string_app_cons. cbn [String.length]. rewrite IH. reflexivity. }
    rewrite Happ, substring_prefix_length. cbn [String.length]. lia.
  - apply Nat.ltb_ge in E. split; [exact E|]. split; [reflexivity|].
    split; [lia|reflexivity].
Qed.

Lemma firstByName_names cards : forall seen,
  NoDup (Card.Name <$> firstByName seen cards)
  /\ forall card, card ∈ firstByName seen cards -> Card.Name card ∉ seen.
Proof.
  induction cards as [|card cards IH]; intros seen; cbn [firstByName].
  - split; [constructor|]. intros c Hc. apply elem_of_nil in Hc. contradiction.
  - case_bool_decide as Hin; [apply IH|].
    destruct (IH (Card.Name card :: seen)) as [Hnd Hfresh].
    split.
    + rewrite fmap_cons. apply NoDup_cons. split; [|exact Hnd].
      intros Hn. apply list_elem_of_fmap in Hn as (c & Heq & Hc).
      apply Hfresh in Hc. apply Hc. rewrite Heq. left.
    + intros c Hc. apply elem_of_cons in Hc as [->|Hc]; [exact Hin|].
      apply Hfresh in Hc. intros Hs. apply Hc. right. exact Hs.
Qed.

Lemma take_names_NoDup (cards : list Card) n :
  NoDup (Card.Name <$> cards) -> NoDup (Card.Name <$> take n cards).
Proof.
  intros Hnd. rewrite <- (take_drop n cards), fmap_app in Hnd.
  apply NoDup_app in Hnd as [Hnd _]. exact Hnd.
Qed.

Section InlineQueries.
Context `{Runtime}.

(** X16.  [handleInline] on a store in any state a run of a new store can
    reach.  An empty query is answered at once with no results, ready or
    not.  Any other query waits as long as no refresh has succeeded; after
    that it is answered, never dropped and never on a nil catalog, with
    the articles of the first eleven cards that [Query] returns on the
    current catalog, and no two results of the reply have the same id. *)
Theorem handleInline_reply (acts : list Store.Action) (w : Store.World)
    (evs : list Store.Event) (id query : string) (visit : list (string * Card)) :
  Store.run acts Store.NewStore = Some (w, evs) ->
  handleInline id "" (Store.st w) visit
  = Answered {| InlineQueryID := id; Results := [] |}
  /\ (query <> "" -> ~ Exists succeeded evs ->
      handleInline id query (Store.st w) visit = Waiting)
  /\ (query <> "" -> Exists succeeded evs ->
      exists c results,
        Store.cards (Store.st w) = Some c
        /\ handleInline id query (Store.st w) visit
           = Answered {| InlineQueryID := id; Results := results |}
        /\ results = article <$> take 11 (Cards.Query c query visit).1
        /\ NoDup (ID <$> results)).
Proof.
  intros Hrun.
  pose proof (run_Inv _ _ _ _ Inv_NewStore Hrun) as HI.
  pose proof (run_ready _ _ _ _ Inv_NewStore Hrun) as Hready.
  assert (Hnot0 : 0 ∉ fired (Store.chans (Store.st Store.NewStore)))
    by (cbn; apply not_elem_of_empty).
  destruct HI as [Hr Hc Hn Hnl Hfl Hf Hcards Hnot Hpub Hrc Hset].
  split; [reflexivity|]. split.
  - intros Hq Hnone. unfold handleInline.
    apply String.eqb_neq in Hq. rewrite Hq. unfold Store.Cards. rewrite Hr.
    rewrite (proj2 (isClosed_not_fired 0 _)); [reflexivity|].
    intros Hin. apply Hready in Hin as [Hin|Hin]; [exact (Hnot0 Hin)|exact (Hnone Hin)].
  - intros Hq Hsome. unfold handleInline.
    apply String.eqb_neq in Hq. rewrite Hq. unfold Store.Cards. rewrite Hr.
    assert (E : 0 ∈ fired (Store.chans (Store.st w))) by (apply Hready; right; exact Hsome).
    pose proof (Hrc E) as Hcs. apply isClosed_fired in E. rewrite E.
    destruct (Store.cards (Store.st w)) as [c|]; [|contradiction].
    exists c, (article <$> take 11 (Cards.Query c query visit).1).
    split; [reflexivity|].
    pose proof (queryLoop_firstByName (ParseQuery query) visit [] ∅ []) as Hloop.
    unfold Cards.Query.
    destruct (foldl _ _ visit) as [res seen]. cbn [fst] in *.
    split; [|split; [reflexivity|]].
    + rewrite inlineLoop_take. reflexivity.
    + rewrite <- list_fmap_compose.
      assert (Hnd : NoDup (Card.Name <$> res)).
      { rewrite Hloop.
        - apply firstByName_names.
        - intros n. rewrite lookup_empty, elem_of_nil. cbn. split; [discriminate|tauto]. }
      apply (take_names_NoDup res 11) in Hnd.
      erewrite list_fmap_ext; [exact Hnd|]. intros i x _. reflexivity.
Qed.

End InlineQueries.

Section InlineRuns.
#[local] Existing Instance fixtureRuntime.

Lemma handleInline_reply_witness :
  exists w evs,
    Store.run firstRefresh Store.NewStore = Some (w, evs)
    /\ Exists succeeded evs
    /\ handleInline "42" "shock t:instant" (Store.st w) [("Shock", shock)]
       = Answered {| InlineQueryID := "42"; Results := [article shock] |}.
Proof.
  eexists _, _. split; [vm_compute; reflexivity|].
  assert (Hs : Exists succeeded [Store.Silent; Store.Silent;
                                 Store.Logged [UpdateSuccessful]]).
  { do 2 apply Exists_cons_tl. apply Exists_cons_hd.
    exists [UpdateSuccessful]. split; [reflexivity|left; reflexivity]. }
  split; [exact Hs|].
  match goal with
  | |- handleInline _ _ (Store.st ?w) _ = _ =>
      assert (Hrun : Store.run firstRefresh Store.NewStore
                     = Some (w, [Store.Silent; Store.Silent;
                                 Store.Logged [UpdateSuccessful]]))
        by (vm_compute; reflexivity)
  end.
  pose proof (handleInline_reply firstRefresh _ _ "42" "shock t:instant"
                [("Shock", shock)] Hrun) as (_ & _ & Hans).
  destruct (Hans ltac:(discriminate) Hs) as (c & results & _ & _ & _ & _).
  vm_compute. reflexivity.
Defined.

End InlineRuns.

(** ** Lookup by joined names *)

Lemma lastProducer_ext key1 key2 (visit : list (string * Card)) :
  (forall e, In e visit -> produces key1 e.2 = produces key2 e.2) ->
  lastProducer key1 visit = lastProducer key2 visit.
Proof.
  induction visit as [|e visit IH]; intros Hsame; [reflexivity|].
  cbn [lastProducer]. rewrite IH by (intros e' He'; apply Hsame; right; exact He').
  rewrite (Hsame e) by (left; reflexivity). reflexivity.
Qed.

Lemma produces_joined (card : Card) sep :
  Card.Names card <> [] -> In sep separators ->
  produces (joinedKey (Card.Names card) sep) card = true.
Proof.
  intros Hne Hsep. unfold produces, keysOf. apply bool_decide_eq_true.
  destruct (Card.Names card) as [|a names]; [contradiction|].
  apply elem_of_app. left. apply list_elem_of_fmap. exists sep.
  split; [reflexivity|apply list_elem_of_In, Hsep].
Qed.

(** X17.  The promise of the comment on [LookupNormalized] ("Beck // Call"
    is equivalent to "beck & CALL").  Take component names whose joined
    forms are ASCII, two of the three separators, and two inputs that
    spell the names joined by them in any letter case.  If every card
    entered under either joined key carries exactly these component names,
    both lookups give the same answer, and that answer is a card with
    these names as soon as the catalog has one. *)
Theorem Lookup_joined_separators (m : gmap string Card)
    (visit : list (string * Card)) (names : list string)
    (sep1 sep2 x1 x2 : string) :
  MapRange m visit ->
  names <> [] ->
  In sep1 [" & "; " / "; " // "] -> In sep2 [" & "; " / "; " // "] ->
  isASCII x1 = true -> isASCII x2 = true ->
  strings.ToLower x1 = strings.ToLower (strings.Join names sep1) ->
  strings.ToLower x2 = strings.ToLower (strings.Join names sep2) ->
  (forall e, In e visit ->
     In (joinedKey names sep1) (keysOf e.2) \/ In (joinedKey names sep2) (keysOf e.2) ->
     Card.Names e.2 = names) ->
  Cards.LookupNormalized (Cards.generateNormalized (Cards.mk m ∅) visit) x1
  = Cards.LookupNormalized (Cards.generateNormalized (Cards.mk m ∅) visit) x2
  /\ ((exists k card, m !! k = Some card /\ Card.Names card = names) ->
      exists card,
        Cards.LookupNormalized (Cards.generateNormalized (Cards.mk m ∅) visit) x1
        = Some card
        /\ Card.Names card = names).
Proof.
  intros Hrange Hne Hs1 Hs2 Hx1 Hx2 Hl1 Hl2 Honly.
  unfold Cards.LookupNormalized.
  rewrite (normalize_ascii x1 Hx1), (normalize_ascii x2 Hx2), Hl1, Hl2.
  change (strings.ToLower (strings.Join names sep1)) with (joinedKey names sep1).
  change (strings.ToLower (strings.Join names sep2)) with (joinedKey names sep2).
  rewrite !generateNormalized_lookup. cbn [Cards.normalized]. rewrite !lookup_empty.
  assert (Hsame : lastProducer (joinedKey names sep1) visit
                  = lastProducer (joinedKey names sep2) visit).
  { apply lastProducer_ext. intros e He.
    destruct (produces (joinedKey names sep1) e.2) eqn:E1.
    - apply bool_decide_eq_true, list_elem_of_In in E1.
      pose proof (Honly e He (or_introl E1)) as Hn. symmetry.
      rewrite <- Hn. apply produces_joined; [rewrite Hn; exact Hne|exact Hs2].
    - destruct (produces (joinedKey names sep2) e.2) eqn:E2; [|reflexivity].
      apply bool_decide_eq_true, list_elem_of_In in E2.
      pose proof (Honly e He (or_intror E2)) as Hn.
      rewrite <- Hn, produces_joined in E1; [discriminate|rewrite Hn; exact Hne|exact Hs1]. }
  rewrite Hsame. split; [reflexivity|].
  intros (k & card & Hk & Hn).
  destruct (lastProducer (joinedKey names sep2) visit) as [w|] eqn:Hw.
  - exists w. split; [reflexivity|].
    destruct (lastProducer_Some _ _ _ Hw) as [Hkey Hin].
    apply in_map_iff in Hin as (e & <- & He).
    apply (Honly e He). right. exact Hkey.
  - exfalso. assert (Hin : In (k, card) visit).
    { apply list_elem_of_In. unfold MapRange in Hrange. rewrite Hrange.
      apply elem_of_map_to_list, Hk. }
    apply (proj1 (lastProducer_None _ _) Hw (k, card) Hin).
    cbn [snd]. pose proof (produces_joined card sep2) as Hp.
    rewrite Hn in Hp. specialize (Hp Hne Hs2). unfold produces in Hp.
    apply bool_decide_eq_true in Hp. apply list_elem_of_In. exact Hp.
Qed.

Lemma Lookup_joined_separators_witness :
  Cards.LookupNormalized
    (Cards.generateNormalized (Cards.mk (Cards.M split) ∅) splitVisit) "Fire // Ice"
  = Cards.LookupNormalized
      (Cards.generateNormalized (Cards.mk (Cards.M split) ∅) splitVisit) "fire & ICE"
  /\ Cards.LookupNormalized
       (Cards.generateNormalized (Cards.mk (Cards.M split) ∅) splitVisit) "fire & ICE"
     = Some ice.
Proof.
  split; [|reflexivity].
  refine (proj1 (Lookup_joined_separators (Cards.M split) splitVisit ["Fire"; "Ice"]
                   " // " " & " "Fire // Ice" "fire & ICE" split_range _ _ _
                   eq_refl eq_refl eq_refl eq_refl _)).
  - discriminate.
  - right. right. left. reflexivity.
  - left. reflexivity.
  - intros e [<-|[<-|[]]] _; reflexivity.
Defined.
